(** * CILisp: the evaluation core of [cilisp.c], embedded and verified

    The C program builds an expression tree out of heap-allocated
    [AST_NODE] blocks that point at each other ([next], [parent],
    [opList], [child]) and at [SYMBOL_TABLE_NODE] blocks, and then reduces
    the tree to a [RET_VAL].  The embedding keeps that shape: blocks live
    in a store indexed by addresses, a C pointer is an [option ptr] with
    [None] for [NULL], the constructors of the tree are store-passing
    functions and the evaluator reads the store.

    Assumptions of the embedding:
    - [double] is IEEE 754 binary64, so [+ - * /], unary minus, [fabs] and
      [sqrt] are the primitive operations of [PrimFloat]; the remaining
      functions of [<math.h>] are parameters (see [libm]);
    - [calloc] and [malloc] succeed, and a block is never handed out twice;
    - a C string is its contents; the size of the block that holds it is
      represented where the program sizes the block itself (the name of
      a symbol node, see [createSymbolNode]) and not where [strdup] does;
    - reading the member of a local that was never assigned yields a
      value the program does not control (see [indeterminate]). *)

From Stdlib Require Import ZArith String List Floats Lia.
From stdpp Require Import base option gmap.

Local Open Scope string_scope.
Local Open Scope float_scope.

(** ** Values: [cilisp.h] *)

Inductive FUNC_TYPE : Set :=
| NEG_FUNC | ABS_FUNC | ADD_FUNC | SUB_FUNC | MULT_FUNC | DIV_FUNC
| REMAINDER_FUNC | EXP_FUNC | EXP2_FUNC | POW_FUNC | LOG_FUNC | SQRT_FUNC
| CBRT_FUNC | HYPOT_FUNC | MAX_FUNC | MIN_FUNC | CUSTOM_FUNC.

Inductive NUM_TYPE : Set := INT_TYPE | DOUBLE_TYPE | NO_TYPE.

Record AST_NUMBER : Set := { type : NUM_TYPE; value : float }.

Definition RET_VAL : Set := AST_NUMBER.

Definition NAN_RET_VAL : RET_VAL := {| type := DOUBLE_TYPE; value := nan |}.
Definition ZERO_RET_VAL : RET_VAL := {| type := INT_TYPE; value := 0 |}.

(** [a == b] on [NUM_TYPE]. *)
Definition NUM_TYPE_eqb (a b : NUM_TYPE) : bool :=
  match a, b with
  | INT_TYPE, INT_TYPE | DOUBLE_TYPE, DOUBLE_TYPE | NO_TYPE, NO_TYPE => true
  | _, _ => false
  end.

(** ** The store *)

Definition ptr : Set := positive.

Inductive AST_NODE_TYPE : Set :=
| NUM_NODE_TYPE | FUNC_NODE_TYPE | SYM_NODE_TYPE | SCOPE_NODE_TYPE.

(** The tag [type] of an [AST_NODE] and its union [data] are one
    inductive type: every constructor of the tree sets both together. *)
Inductive AST_DATA : Set :=
| number (n : AST_NUMBER)
| function (func : FUNC_TYPE) (opList : option ptr)
| symbol (id : string)
| scope (child : option ptr).

Definition node_type (d : AST_DATA) : AST_NODE_TYPE :=
  match d with
  | number _ => NUM_NODE_TYPE
  | function _ _ => FUNC_NODE_TYPE
  | symbol _ => SYM_NODE_TYPE
  | scope _ => SCOPE_NODE_TYPE
  end.

Record AST_NODE : Set := {
  parent : option ptr;
  symbolTable : option ptr;
  data : AST_DATA;
  next : option ptr
}.

Record SYMBOL_TABLE_NODE : Set := {
  sym_id : option string;
  sym_value : option ptr;
  sym_next : option ptr;
  sym_type : NUM_TYPE
}.

(** [nodes] holds the live [AST_NODE] blocks, [symbols] the live
    [SYMBOL_TABLE_NODE] blocks, [brk] is the next address [calloc] returns. *)
Record heap : Type := {
  nodes : gmap ptr AST_NODE;
  symbols : gmap ptr SYMBOL_TABLE_NODE;
  brk : ptr
}.

Definition empty_heap : heap := {| nodes := ∅; symbols := ∅; brk := 1%positive |}.

(** ** Effects: what a call prints and how it ends *)

Inductive event : Set :=
| Warning (msg : string)   (* warning(msg) *)
| Error (msg : string)     (* yyerror(msg), followed by exit(1) *)
| Printf (msg : string).   (* printf(msg) *)

Inductive outcome (A : Type) : Type :=
| Return (a : A)   (* the call returns a *)
| Exit             (* the process ended in exit(1) *)
| Undefined        (* NULL or freed block dereferenced, strcmp on NULL *)
| OutOfFuel.       (* the bound on loops and recursion ran out *)

Arguments Return {A} a.
Arguments Exit {A}.
Arguments Undefined {A}.
Arguments OutOfFuel {A}.

(** A computation: the events it emitted, in order, and its outcome. *)
Definition M (A : Type) : Type := (list event * outcome A)%type.

Definition ret {A} (a : A) : M A := ([], Return a).

Definition bind {A B} (m : M A) (k : A → M B) : M B :=
  match m with
  | (out, Return a) => let (out', r) := k a in ((out ++ out')%list, r)
  | (out, Exit) => (out, Exit)
  | (out, Undefined) => (out, Undefined)
  | (out, OutOfFuel) => (out, OutOfFuel)
  end.

Notation "'do' x <- m ; k" := (bind m (fun x => k))
  (at level 10, x pattern, m at level 100, k at level 200).
Notation "m ;; k" := (bind m (fun _ => k))
  (at level 100, k at level 200, right associativity).

Definition undefined {A} : M A := ([], Undefined).
Definition out_of_fuel {A} : M A := ([], OutOfFuel).

(** [warning]: report and go on. *)
Definition warning (msg : string) : M unit := ([Warning msg], Return tt).

(** [yyerror]: report and [exit(1)]. *)
Definition yyerror {A} (msg : string) : M A := ([Error msg], Exit).

Definition printf (msg : string) : M unit := ([Printf msg], Return tt).

(** [strcmp(a, b) == 0]; a [NULL] argument is undefined behaviour. *)
Definition strcmp_eq0 (a b : option string) : M bool :=
  match a, b with
  | Some s, Some t => ret (String.eqb s t)
  | _, _ => undefined
  end.

(** Reading and writing blocks. *)
Definition load (h : heap) (p : option ptr) : M AST_NODE :=
  match p with
  | None => undefined
  | Some a => match nodes h !! a with Some n => ret n | None => undefined end
  end.

Definition load_sym (h : heap) (p : option ptr) : M SYMBOL_TABLE_NODE :=
  match p with
  | None => undefined
  | Some a => match symbols h !! a with Some e => ret e | None => undefined end
  end.

Definition store (a : ptr) (n : AST_NODE) (h : heap) : heap :=
  {| nodes := <[a := n]> (nodes h); symbols := symbols h; brk := brk h |}.

Definition store_sym (a : ptr) (e : SYMBOL_TABLE_NODE) (h : heap) : heap :=
  {| nodes := nodes h; symbols := <[a := e]> (symbols h); brk := brk h |}.

(** [calloc] for an [AST_NODE]: a fresh block, filled by the caller. *)
Definition calloc_node (n : AST_NODE) (h : heap) : ptr * heap :=
  (brk h, {| nodes := <[brk h := n]> (nodes h); symbols := symbols h;
             brk := Pos.succ (brk h) |}).

Definition calloc_sym (e : SYMBOL_TABLE_NODE) (h : heap) : ptr * heap :=
  (brk h, {| nodes := nodes h; symbols := <[brk h := e]> (symbols h);
             brk := Pos.succ (brk h) |}).

(** [free] of an [AST_NODE] block: nothing for [NULL], undefined for a
    block that is not live. *)
Definition free (p : option ptr) (h : heap) : M heap :=
  match p with
  | None => ret h
  | Some a =>
    match nodes h !! a with
    | Some _ => ret {| nodes := delete a (nodes h); symbols := symbols h; brk := brk h |}
    | None => undefined
    end
  end.

Definition with_parent (p : option ptr) (n : AST_NODE) : AST_NODE :=
  {| parent := p; symbolTable := symbolTable n; data := data n; next := next n |}.

Definition with_next (p : option ptr) (n : AST_NODE) : AST_NODE :=
  {| parent := parent n; symbolTable := symbolTable n; data := data n; next := p |}.

Definition with_sym_value (v : option ptr) (e : SYMBOL_TABLE_NODE) : SYMBOL_TABLE_NODE :=
  {| sym_id := sym_id e; sym_value := v; sym_next := sym_next e; sym_type := sym_type e |}.

Definition with_sym_next (t : option ptr) (e : SYMBOL_TABLE_NODE) : SYMBOL_TABLE_NODE :=
  {| sym_id := sym_id e; sym_value := sym_value e; sym_next := t; sym_type := sym_type e |}.

(** ** Building the tree *)

(** [setParent]: the loop runs along [next]; [fuel] bounds its length. *)
Fixpoint setParent (fuel : nat) (list parent : option ptr) (h : heap) : M heap :=
  match list with
  | None => ret h
  | Some a =>
    match fuel with
    | O => out_of_fuel
    | S fuel =>
      do n <- load h list;
      setParent fuel (next n) parent (store a (with_parent parent n) h)
    end
  end.

(** The loop of [findSymbol].  The comparison reads [symbolTable->id], the
    head of the table, on every turn, as the source does. *)
Fixpoint findSymbol_loop (fuel : nat) (h : heap) (id : option string)
    (symbolTable current : option ptr) : M (option ptr) :=
  match current with
  | None => ret None
  | Some _ =>
    match fuel with
    | O => out_of_fuel
    | S fuel =>
      do head <- load_sym h symbolTable;
      do same <- strcmp_eq0 id (sym_id head);
      if same then ret current
      else
        do cur <- load_sym h current;
        findSymbol_loop fuel h id symbolTable (sym_next cur)
    end
  end.

Definition findSymbol (fuel : nat) (h : heap) (id : option string)
    (symbolTable : option ptr) : M (option ptr) :=
  match id with
  | None => ret None
  | Some _ => findSymbol_loop fuel h id symbolTable symbolTable
  end.

Definition createNumberNode (value : float) (type : NUM_TYPE) (h : heap) : ptr * heap :=
  calloc_node {| parent := None; symbolTable := None;
                 data := number {| type := type; value := value |};
                 next := None |} h.

(** [sizeof(id)] for [char *id]: the size of a pointer, 8 bytes on the
    LP64 targets the program is built for. *)
Definition sizeof_char_ptr : nat := 8.

(** [createSymbolNode].  The name is copied by [strcpy] into a block of
    [sizeof(id) + 1] bytes, the size of a pointer and one more, not the
    length of the name: the copy, [strlen(id) + 1] bytes, stays inside
    the block for names of up to [sizeof(id)] characters and writes past
    its end, which is undefined, for longer ones. *)
Definition createSymbolNode (id : string) (h : heap) : M (ptr * heap) :=
  if (String.length id + 1 <=? sizeof_char_ptr + 1)%nat
  then ret (calloc_node {| parent := None; symbolTable := None; data := symbol id;
                           next := None |} h)
  else undefined.

(** The loop of [createScopeNode] over the entries of the table; [turns]
    bounds the loop, [fuel] each call of [setParent]. *)
Fixpoint createScopeNode_loop (turns fuel : nat) (symbolTable : option ptr)
    (node : ptr) (h : heap) : M heap :=
  match symbolTable with
  | None => ret h
  | Some _ =>
    match turns with
    | O => out_of_fuel
    | S turns =>
      do e <- load_sym h symbolTable;
      do h' <- setParent fuel (sym_value e) (Some node) h;
      createScopeNode_loop turns fuel (sym_next e) node h'
    end
  end.

Definition createScopeNode (fuel : nat) (symbolTable child : option ptr)
    (h : heap) : M (ptr * heap) :=
  let (node, h1) :=
    calloc_node {| parent := None; symbolTable := symbolTable;
                   data := scope child; next := None |} h in
  do h2 <- createScopeNode_loop fuel fuel symbolTable node h1;
  do h3 <- setParent fuel child (Some node) h2;
  ret (node, h3).

Definition createSymbol (id : option string) (value : option ptr) (h : heap) : ptr * heap :=
  calloc_sym {| sym_id := id; sym_value := value; sym_next := None;
                sym_type := INT_TYPE |} h.

(** [addSymbolToTable].  [free(new->id)] releases the name of the wrapper
    that is dropped; the wrapper itself stays allocated and unreachable. *)
Definition addSymbolToTable (fuel : nat) (new table : option ptr) (h : heap)
    : M (option ptr * heap) :=
  match new with
  | Some a =>
    do nw <- load_sym h new;
    do old <- findSymbol fuel h (sym_id nw) table;
    match old with
    | Some o =>
      warning "Duplicate assignment to symbol";;
      do ol <- load_sym h old;
      do h1 <- free (sym_value ol) h;
      ret (table, store_sym o (with_sym_value (sym_value nw) ol) h1)
    | None => ret (new, store_sym a (with_sym_next table nw) h)
    end
  | None => ret (new, h)
  end.

Definition createFunctionNode (fuel : nat) (func : FUNC_TYPE) (opList : option ptr)
    (h : heap) : M (ptr * heap) :=
  let (node, h1) :=
    calloc_node {| parent := None; symbolTable := None;
                   data := function func opList; next := None |} h in
  do h2 <- setParent fuel opList (Some node) h1;
  ret (node, h2).

Definition addExpressionToList (newExpr exprList : option ptr) (h : heap)
    : M (option ptr * heap) :=
  match newExpr with
  | Some a =>
    do n <- load h newExpr;
    ret (newExpr, store a (with_next exprList n) h)
  | None => undefined
  end.

(** ** The evaluator *)

(** The functions of [<math.h>] that [PrimFloat] does not provide.  The
    evaluator is parametric in them. *)
Record libm : Set := {
  fmod : float → float → float;
  pow : float → float → float;
  exp : float → float;
  exp2 : float → float;
  log : float → float;
  cbrt : float → float
}.

Section Evaluator.

Variable lm : libm.

(** What [result.type] holds in a [RET_VAL result;] that was declared and
    not yet assigned. *)
Variable indeterminate : NUM_TYPE.

Variable h : heap.

Section Builtins.

(** The recursive call [eval(...)] of the source. *)
Variable eval : option ptr → M RET_VAL.

Definition evalNeg (oplist : option ptr) : M RET_VAL :=
  match oplist with
  | None => warning "neg called with no operands, NAN returned";; ret NAN_RET_VAL
  | Some _ =>
    do first <- load h oplist;
    match next first with
    | Some _ => warning "neg called with extra operands"
    | None => ret tt
    end;;
    do num <- eval oplist;
    ret {| type := type num; value := - value num |}
  end.

Fixpoint evalAdd_loop (fuel : nat) (oplist : option ptr) (result : RET_VAL)
    : M RET_VAL :=
  match oplist with
  | None => ret result
  | Some _ =>
    match fuel with
    | O => out_of_fuel
    | S fuel =>
      do num <- eval oplist;
      let result := {| type := type num; value := value result + value num |} in
      do cur <- load h oplist;
      evalAdd_loop fuel (next cur) result
    end
  end.

Definition evalAdd (fuel : nat) (oplist : option ptr) : M RET_VAL :=
  match oplist with
  | None => warning "add called with no operands, 0 returned";; ret ZERO_RET_VAL
  | Some _ => evalAdd_loop fuel oplist {| type := indeterminate; value := 0 |}
  end.

Definition evalAbs (oplist : option ptr) : M RET_VAL :=
  match oplist with
  | None => warning "abs called with no operands, NAN returned";; ret NAN_RET_VAL
  | Some _ =>
    do first <- load h oplist;
    match next first with
    | Some _ => warning "abs called with extra operands"
    | None => ret tt
    end;;
    do num <- eval oplist;
    ret {| type := type num; value := abs (value num) |}
  end.

Definition evalSub (oplist : option ptr) : M RET_VAL :=
  match oplist with
  | None => warning "sub called with no operands, 0 returned";; ret ZERO_RET_VAL
  | Some _ =>
    do first <- load h oplist;
    match next first with
    | None => warning "sub called with 1 operand, NAN returned";; ret NAN_RET_VAL
    | Some _ =>
      do firstOp <- eval oplist;
      do secondOP <- eval (next first);
      do second <- load h (next first);
      match next second with
      | Some _ => warning "sub called with too many operands, ignoring extra"
      | None => ret tt
      end;;
      ret {| type := if NUM_TYPE_eqb (type firstOp) DOUBLE_TYPE
                        || NUM_TYPE_eqb (type secondOP) DOUBLE_TYPE
                     then DOUBLE_TYPE else INT_TYPE;
             value := value firstOp - value secondOP |}
    end
  end.

Definition evalMult (oplist : option ptr) : M RET_VAL :=
  match oplist with
  | None => warning "mult called with no operands, 0 returned";; ret ZERO_RET_VAL
  | Some _ =>
    do first <- load h oplist;
    match next first with
    | None => warning "mult called with 1 operand, NAN returned";; ret NAN_RET_VAL
    | Some _ =>
      do firstOp <- eval oplist;
      do secondOP <- eval (next first);
      do second <- load h (next first);
      match next second with
      | Some _ => warning "mult called with too many operands, ignoring extra"
      | None => ret tt
      end;;
      ret {| type := if NUM_TYPE_eqb (type firstOp) DOUBLE_TYPE
                        || NUM_TYPE_eqb (type secondOP) DOUBLE_TYPE
                     then DOUBLE_TYPE else INT_TYPE;
             value := value firstOp * value secondOP |}
    end
  end.

Definition evalDiv (oplist : option ptr) : M RET_VAL :=
  match oplist with
  | None => warning "div called with no operands, 0 returned";; ret ZERO_RET_VAL
  | Some _ =>
    do first <- load h oplist;
    match next first with
    | None => warning "div called with 1 operand, NAN returned";; ret NAN_RET_VAL
    | Some _ =>
      do firstOp <- eval oplist;
      do secondOP <- eval (next first);
      do second <- load h (next first);
      match next second with
      | Some _ => warning "div called with too many operands, ignoring extra"
      | None => ret tt
      end;;
      ret {| type := if NUM_TYPE_eqb (type firstOp) DOUBLE_TYPE
                        || NUM_TYPE_eqb (type secondOP) DOUBLE_TYPE
                     then DOUBLE_TYPE else INT_TYPE;
             value := value firstOp / value secondOP |}
    end
  end.

Definition evalRemainder (oplist : option ptr) : M RET_VAL :=
  match oplist with
  | None => warning "remainder called with no operands, 0 returned";; ret ZERO_RET_VAL
  | Some _ =>
    do first <- load h oplist;
    match next first with
    | None => warning "remainder called with 1 operand, NAN returned";; ret NAN_RET_VAL
    | Some _ =>
      do firstOp <- eval oplist;
      do secondOP <- eval (next first);
      do second <- load h (next first);
      match next second with
      | Some _ => warning "remainder called with too many operands, ignoring extra"
      | None => ret tt
      end;;
      ret {| type := if NUM_TYPE_eqb (type firstOp) DOUBLE_TYPE
                        || NUM_TYPE_eqb (type secondOP) DOUBLE_TYPE
                     then DOUBLE_TYPE else INT_TYPE;
             value := abs (fmod lm (value firstOp) (value secondOP)) |}
    end
  end.

Definition evalExp (oplist : option ptr) : M RET_VAL :=
  match oplist with
  | None => warning "exp called with no operands, NAN returned";; ret NAN_RET_VAL
  | Some _ =>
    do first <- load h oplist;
    match next first with
    | Some _ => warning "exp called with extra operands"
    | None => ret tt
    end;;
    do num <- eval oplist;
    ret {| type := DOUBLE_TYPE; value := exp lm (value num) |}
  end.

Definition evalExp2 (oplist : option ptr) : M RET_VAL :=
  match oplist with
  | None => warning "exp2 called with no operands, NAN returned";; ret NAN_RET_VAL
  | Some _ =>
    do first <- load h oplist;
    match next first with
    | Some _ => warning "exp2 called with extra operands"
    | None => ret tt
    end;;
    do num <- eval oplist;
    let result := {| type := type num; value := exp2 lm (value num) |} in
    if value result <? 0
    then ret {| type := DOUBLE_TYPE; value := value result |}
    else ret result
  end.

Definition evalPow (oplist : option ptr) : M RET_VAL :=
  match oplist with
  | None => warning "pow called with no operands, 0 returned";; ret ZERO_RET_VAL
  | Some _ =>
    do first <- load h oplist;
    match next first with
    | None => warning "pow called with 1 operand, NAN returned";; ret NAN_RET_VAL
    | Some _ =>
      do firstOp <- eval oplist;
      do secondOP <- eval (next first);
      do second <- load h (next first);
      match next second with
      | Some _ => warning "pow called with too many operands, ignoring extra"
      | None => ret tt
      end;;
      ret {| type := if NUM_TYPE_eqb (type firstOp) DOUBLE_TYPE
                        || NUM_TYPE_eqb (type secondOP) DOUBLE_TYPE
                     then DOUBLE_TYPE else INT_TYPE;
             value := pow lm (value firstOp) (value secondOP) |}
    end
  end.

Definition evalLog (oplist : option ptr) : M RET_VAL :=
  match oplist with
  | None => warning "log called with no operands, NAN returned";; ret NAN_RET_VAL
  | Some _ =>
    do first <- load h oplist;
    match next first with
    | Some _ => warning "log called with extra operands"
    | None => ret tt
    end;;
    do num <- eval oplist;
    ret {| type := DOUBLE_TYPE; value := log lm (value num) |}
  end.

Definition evalSqrt (oplist : option ptr) : M RET_VAL :=
  match oplist with
  | None => warning "sqrt called with no operands, NAN returned";; ret NAN_RET_VAL
  | Some _ =>
    do first <- load h oplist;
    match next first with
    | Some _ => warning "sqrt called with extra operands"
    | None => ret tt
    end;;
    do num <- eval oplist;
    ret {| type := DOUBLE_TYPE; value := sqrt (value num) |}
  end.

Definition evalCbrt (oplist : option ptr) : M RET_VAL :=
  match oplist with
  | None => warning "cbrt called with no operands, NAN returned";; ret NAN_RET_VAL
  | Some _ =>
    do first <- load h oplist;
    match next first with
    | Some _ => warning "cbrt called with extra operands"
    | None => ret tt
    end;;
    do num <- eval oplist;
    ret {| type := DOUBLE_TYPE; value := cbrt lm (value num) |}
  end.

Fixpoint evalHypot_loop (fuel : nat) (oplist : option ptr) (result : RET_VAL)
    : M RET_VAL :=
  match oplist with
  | None => ret result
  | Some _ =>
    match fuel with
    | O => out_of_fuel
    | S fuel =>
      do num <- eval oplist;
      let result := {| type := type result;
                       value := value result + pow lm (value num) 2 |} in
      do cur <- load h oplist;
      evalHypot_loop fuel (next cur) result
    end
  end.

Definition evalHypot (fuel : nat) (oplist : option ptr) : M RET_VAL :=
  match oplist with
  | None => warning "hypot called with no operands, 0 returned";; ret ZERO_RET_VAL
  | Some _ =>
    do result <- evalHypot_loop fuel oplist {| type := indeterminate; value := 0 |};
    ret {| type := DOUBLE_TYPE; value := sqrt (value result) |}
  end.

(** [result.value > num.value] is [num.value < result.value]. *)
Fixpoint evalMin_loop (fuel : nat) (oplist : option ptr) (result : RET_VAL)
    : M RET_VAL :=
  match oplist with
  | None => ret result
  | Some _ =>
    match fuel with
    | O => out_of_fuel
    | S fuel =>
      do num <- eval oplist;
      let result :=
        if value num <? value result
        then {| type := type num; value := value num |}
        else result in
      do cur <- load h oplist;
      evalMin_loop fuel (next cur) result
    end
  end.

(** [result.type] is not assigned before the loop. *)
Definition evalMin (fuel : nat) (oplist : option ptr) : M RET_VAL :=
  match oplist with
  | None => warning "min called with no operands, 0 returned";; ret ZERO_RET_VAL
  | Some _ =>
    do num <- eval oplist;
    let result := {| type := indeterminate; value := value num |} in
    do cur <- load h oplist;
    evalMin_loop fuel (next cur) result
  end.

Fixpoint evalMax_loop (fuel : nat) (oplist : option ptr) (result : RET_VAL)
    : M RET_VAL :=
  match oplist with
  | None => ret result
  | Some _ =>
    match fuel with
    | O => out_of_fuel
    | S fuel =>
      do num <- eval oplist;
      let result :=
        if value result <? value num
        then {| type := type num; value := value num |}
        else result in
      do cur <- load h oplist;
      evalMax_loop fuel (next cur) result
    end
  end.

Definition evalMax (fuel : nat) (oplist : option ptr) : M RET_VAL :=
  match oplist with
  | None => warning "max called with no operands, 0 returned";; ret ZERO_RET_VAL
  | Some _ =>
    do num <- eval oplist;
    let result := {| type := indeterminate; value := value num |} in
    do cur <- load h oplist;
    evalMax_loop fuel (next cur) result
  end.

Definition evalFuncNode (fuel : nat) (node : option ptr) : M RET_VAL :=
  match node with
  | None => yyerror "NULL ast node passed into evalFuncNode!"
  | Some _ =>
    do n <- load h node;
    match data n with
    | function func oplist =>
      match func with
      | NEG_FUNC => evalNeg oplist
      | ADD_FUNC => evalAdd fuel oplist
      | ABS_FUNC => evalAbs oplist
      | SUB_FUNC => evalSub oplist
      | MULT_FUNC => evalMult oplist
      | DIV_FUNC => evalDiv oplist
      | REMAINDER_FUNC => evalRemainder oplist
      | EXP_FUNC => evalExp oplist
      | EXP2_FUNC => evalExp2 oplist
      | POW_FUNC => evalPow oplist
      | LOG_FUNC => evalLog oplist
      | SQRT_FUNC => evalSqrt oplist
      | CBRT_FUNC => evalCbrt oplist
      | HYPOT_FUNC => evalHypot fuel oplist
      | MIN_FUNC => evalMin fuel oplist
      | MAX_FUNC => evalMax fuel oplist
      | CUSTOM_FUNC => ret NAN_RET_VAL
      end
    | _ => undefined
    end
  end.

Definition evalNumNode (node : option ptr) : M RET_VAL :=
  match node with
  | None => yyerror "NULL ast node passed into evalNumNode!"
  | Some _ =>
    do n <- load h node;
    match data n with
    | number num => ret {| type := type num; value := value num |}
    | _ => undefined
    end
  end.

Definition evalScope (node : option ptr) : M RET_VAL :=
  match node with
  | None => warning "null node passed to eval scope";; ret NAN_RET_VAL
  | Some _ =>
    do n <- load h node;
    match data n with
    | scope child => eval child
    | _ => undefined
    end
  end.

(** The inner loop of [evalSymbolNode]: one table, entry by entry.
    [Some v] is the [return eval(table->value)], [None] the end of the
    table. *)
Fixpoint evalSymbolNode_table (fuel : nat) (table : option ptr) (id : string)
    : M (option RET_VAL) :=
  match table with
  | None => ret None
  | Some _ =>
    match fuel with
    | O => out_of_fuel
    | S fuel =>
      do e <- load_sym h table;
      do same <- strcmp_eq0 (sym_id e) (Some id);
      if same then do v <- eval (sym_value e); ret (Some v)
      else evalSymbolNode_table fuel (sym_next e) id
    end
  end.

(** The outer loop of [evalSymbolNode]: outward along [parent]. *)
Fixpoint evalSymbolNode_scopes (turns fuel : nat) (currScope : option ptr)
    (id : string) : M RET_VAL :=
  match currScope with
  | None => warning "undefined symbol, nan returned";; ret NAN_RET_VAL
  | Some _ =>
    match turns with
    | O => out_of_fuel
    | S turns =>
      do cs <- load h currScope;
      do found <- evalSymbolNode_table fuel (symbolTable cs) id;
      match found with
      | Some v => ret v
      | None =>
        match parent cs with
        | None => printf "parent is null"
        | Some _ => ret tt
        end;;
        evalSymbolNode_scopes turns fuel (parent cs) id
      end
    end
  end.

Definition evalSymbolNode (fuel : nat) (node : option ptr) : M RET_VAL :=
  match node with
  | None => warning "null node passed to eval scope";; ret NAN_RET_VAL
  | Some _ =>
    do n <- load h node;
    match data n with
    | symbol id => evalSymbolNode_scopes fuel fuel node id
    | _ => undefined
    end
  end.

End Builtins.

(** [eval]: [fuel] bounds the depth of the recursion and the length of
    every loop below it. *)
Fixpoint eval (fuel : nat) (node : option ptr) : M RET_VAL :=
  match fuel with
  | O => out_of_fuel
  | S fuel =>
    match node with
    | None => yyerror "NULL ast node passed into eval!"
    | Some _ =>
      do n <- load h node;
      match node_type (data n) with
      | NUM_NODE_TYPE => evalNumNode node
      | FUNC_NODE_TYPE => evalFuncNode (eval fuel) fuel node
      | SCOPE_NODE_TYPE => evalScope (eval fuel) node
      | SYM_NODE_TYPE => evalSymbolNode (eval fuel) fuel node
      end
    end
  end.

End Evaluator.

(** ** The rest of [cilisp.c]: names of functions, releasing a tree *)

(** The array [funcNames] of [resolveFunc]; the empty string ends it. *)
Definition funcNames : list string :=
  ["neg"; "abs"; "add"; "sub"; "mult"; "div"; "remainder"; "exp"; "exp2"; "pow";
   "log"; "sqrt"; "cbrt"; "hypot"; "max"; "min"; ""].

(** The enumerator of [FUNC_TYPE] with the value [i]: [return i;]. *)
Definition FUNC_TYPE_of_nat (i : nat) : FUNC_TYPE :=
  match i with
  | 0 => NEG_FUNC | 1 => ABS_FUNC | 2 => ADD_FUNC | 3 => SUB_FUNC
  | 4 => MULT_FUNC | 5 => DIV_FUNC | 6 => REMAINDER_FUNC | 7 => EXP_FUNC
  | 8 => EXP2_FUNC | 9 => POW_FUNC | 10 => LOG_FUNC | 11 => SQRT_FUNC
  | 12 => CBRT_FUNC | 13 => HYPOT_FUNC | 14 => MAX_FUNC | 15 => MIN_FUNC
  | _ => CUSTOM_FUNC
  end.

(** The loop of [resolveFunc] from index [i], [names] being what is left
    of the array from there.  The loop stops at the first name whose first
    character is the terminator, so it never runs past the array. *)
Fixpoint resolveFunc_loop (names : list string) (i : nat) (funcName : string)
    : FUNC_TYPE :=
  match names with
  | [] => CUSTOM_FUNC
  | EmptyString :: _ => CUSTOM_FUNC
  | name :: names' =>
    if String.eqb name funcName then FUNC_TYPE_of_nat i
    else resolveFunc_loop names' (S i) funcName
  end.

Definition resolveFunc (funcName : string) : FUNC_TYPE :=
  resolveFunc_loop funcNames 0 funcName.

(** [freeNode]: a call node releases what its [opList] points at, by the
    same function, and then itself; every other node only itself.
    [fuel] bounds the depth of the recursion. *)
Fixpoint freeNode (fuel : nat) (node : option ptr) (h : heap) : M heap :=
  match node with
  | None => ret h
  | Some _ =>
    match fuel with
    | O => out_of_fuel
    | S fuel =>
      do n <- load h node;
      do h1 <- match data n with
               | function _ opList => freeNode fuel opList h
               | _ => ret h
               end;
      free node h1
    end
  end.

(** ** Reading linked structures out of the store *)

(** [operands h p l]: starting at [p] and following [next], the store
    holds the blocks at the addresses [l], in order, and then [NULL]. *)
Fixpoint operands (h : heap) (p : option ptr) (l : list ptr) : Prop :=
  match l with
  | [] => p = None
  | a :: l' => p = Some a ∧ ∃ n, nodes h !! a = Some n ∧ operands h (next n) l'
  end.

(** [table_seg h t es t']: starting at [t] and following the table's
    [next], the store holds the entries [es], in order, and then [t']. *)
Fixpoint table_seg (h : heap) (t : option ptr) (es : list SYMBOL_TABLE_NODE)
    (t' : option ptr) : Prop :=
  match es with
  | [] => t = t'
  | e :: es' =>
    ∃ a, t = Some a ∧ symbols h !! a = Some e ∧ table_seg h (sym_next e) es' t'
  end.

(** [scope_seg h p cs p']: starting at [p] and following [parent], the
    store holds the blocks [cs], in order, and then [p']. *)
Fixpoint scope_seg (h : heap) (p : option ptr) (cs : list AST_NODE)
    (p' : option ptr) : Prop :=
  match cs with
  | [] => p = p'
  | c :: cs' =>
    ∃ a, p = Some a ∧ nodes h !! a = Some c ∧ scope_seg h (parent c) cs' p'
  end.

(** The names of a table, read with the table's [next]; [fuel] bounds the
    walk. *)
Fixpoint table_ids (fuel : nat) (h : heap) (t : option ptr) : list (option string) :=
  match fuel, t with
  | S fuel, Some a =>
    match symbols h !! a with
    | Some e => sym_id e :: table_ids fuel h (sym_next e)
    | None => []
    end
  | _, _ => []
  end.

(** A call node with the function [func] and the operand list [oplist]. *)
Definition call_node (h : heap) (f : ptr) (func : FUNC_TYPE) (oplist : option ptr) : Prop :=
  ∃ n, nodes h !! f = Some n ∧ data n = function func oplist.

(** An entry that has a name, and not the name [id]. *)
Definition other_name (id : string) (e : SYMBOL_TABLE_NODE) : Prop :=
  ∃ s, sym_id e = Some s ∧ s ≠ id.

(** The table of the block [c] is the finite list [es], and no entry of
    it is named [id]. *)
Definition no_binding (h : heap) (id : string) (c : AST_NODE)
    (es : list SYMBOL_TABLE_NODE) : Prop :=
  table_seg h (symbolTable c) es None ∧ Forall (other_name id) es.

(** ** Closed forms for the statements *)

(** [m'] returns whatever [m] returns, after the same events. *)
Definition returns_as {A} (m m' : M A) : Prop :=
  ∀ out a, m = (out, Return a) → m' = (out, Return a).

(** sub, mult, div, remainder, pow. *)
Definition two_operand (func : FUNC_TYPE) : bool :=
  match func with
  | SUB_FUNC | MULT_FUNC | DIV_FUNC | REMAINDER_FUNC | POW_FUNC => true
  | _ => false
  end.

(** The operation a two-operand function applies to the values of its
    operands. *)
Definition operation (lm : libm) (func : FUNC_TYPE) (x y : float) : float :=
  match func with
  | SUB_FUNC => x - y
  | MULT_FUNC => x * y
  | DIV_FUNC => x / y
  | REMAINDER_FUNC => abs (fmod lm x y)
  | POW_FUNC => pow lm x y
  | _ => nan
  end.

(** The name a function prints in its warnings; the names are those of
    the table [funcNames] of [resolveFunc]. *)
Definition func_name (func : FUNC_TYPE) : string :=
  match func with
  | NEG_FUNC => "neg" | ABS_FUNC => "abs" | ADD_FUNC => "add" | SUB_FUNC => "sub"
  | MULT_FUNC => "mult" | DIV_FUNC => "div" | REMAINDER_FUNC => "remainder"
  | EXP_FUNC => "exp" | EXP2_FUNC => "exp2" | POW_FUNC => "pow" | LOG_FUNC => "log"
  | SQRT_FUNC => "sqrt" | CBRT_FUNC => "cbrt" | HYPOT_FUNC => "hypot"
  | MAX_FUNC => "max" | MIN_FUNC => "min" | CUSTOM_FUNC => ""
  end.

(** What a two-operand function prints after it evaluated its operands:
    the warning when a third operand is linked, nothing otherwise. *)
Definition extra_operands (func : FUNC_TYPE) (third : option ptr) : list event :=
  match third with
  | Some _ => [Warning (func_name func ++ " called with too many operands, ignoring extra")]
  | None => []
  end.

(** The type of a two-operand result:
    [firstOp.type == DOUBLE_TYPE || secondOP.type == DOUBLE_TYPE]. *)
Definition promoted (t1 t2 : NUM_TYPE) : NUM_TYPE :=
  if NUM_TYPE_eqb t1 DOUBLE_TYPE || NUM_TYPE_eqb t2 DOUBLE_TYPE
  then DOUBLE_TYPE else INT_TYPE.

(** The shape shared by the five functions once two operands are linked:
    evaluate the first, evaluate the second, warn if a third is linked,
    return the promoted result. *)
Definition two_operand_call (lm : libm) (func : FUNC_TYPE) (third : option ptr)
    (m1 m2 : M RET_VAL) : M RET_VAL :=
  do v1 <- m1;
  do v2 <- m2;
  (extra_operands func third,
   Return {| type := promoted (type v1) (type v2);
             value := operation lm func (value v1) (value v2) |}).

(** The one-operand functions with a fractional result. *)
Definition fractional (func : FUNC_TYPE) : bool :=
  match func with
  | EXP_FUNC | EXP2_FUNC | LOG_FUNC | SQRT_FUNC | CBRT_FUNC => true
  | _ => false
  end.

(** The function of [<math.h>] each of them applies. *)
Definition fractional_operation (lm : libm) (func : FUNC_TYPE) (x : float) : float :=
  match func with
  | EXP_FUNC => exp lm x
  | EXP2_FUNC => exp2 lm x
  | LOG_FUNC => log lm x
  | SQRT_FUNC => sqrt x
  | CBRT_FUNC => cbrt lm x
  | _ => nan
  end.

(** One turn of the loop of [evalAdd] on the accumulator [result]. *)
Definition add_step (result num : RET_VAL) : RET_VAL :=
  {| type := type num; value := value result + value num |}.

(** ** Closed programs *)

(** [2^n], by [n] exact doublings. *)
Fixpoint doubling (n : nat) : float :=
  match n with
  | O => 1
  | S n => 2 * doubling n
  end.

(** [exp2] on the whole numbers 0 to 63, where it is exact; NaN elsewhere. *)
Definition sample_exp2 (x : float) : float :=
  match find (λ n, x =? of_uint63 (Uint63.of_Z (Z.of_nat n))) (seq 0 64) with
  | Some n => doubling n
  | None => nan
  end.

(** A stand-in for [<math.h>] to run closed programs: [exp2] as above,
    [pow] on the exponent 2 as a product, and NaN for everything else.
    The theorems hold for every [libm]; this one only runs the programs
    below. *)
Definition sample_libm : libm :=
  {| fmod := λ _ _, nan;
     pow := λ x y, if y =? 2 then x * x else nan;
     exp := λ _, nan;
     exp2 := sample_exp2;
     log := λ _, nan;
     cbrt := λ _, nan |}.

(** Literals. *)
Definition Int (v : float) : RET_VAL := {| type := INT_TYPE; value := v |}.

Definition Double (v : float) : RET_VAL := {| type := DOUBLE_TYPE; value := v |}.

(** The store a builder leaves. *)
Definition heap_of {A} (m : M (A * heap)) : heap :=
  match m with
  | (_, Return (_, h)) => h
  | _ => empty_heap
  end.

(** The operand list of the literals [vs]: the front end reduces the
    list from its end, so the last literal is allocated first and each
    earlier one is linked in front by [addExpressionToList]. *)
Fixpoint literal_list (vs : list RET_VAL) (h : heap) : M (option ptr * heap) :=
  match vs with
  | [] => ret (None, h)
  | v :: vs' =>
    do (rest, h) <- literal_list vs' h;
    let (n, h) := createNumberNode (value v) (type v) h in
    addExpressionToList (Some n) rest h
  end.

(** [(func v1 ... vn)] on literals, in an empty store. *)
Definition call_of_literals (func : FUNC_TYPE) (vs : list RET_VAL) : M (ptr * heap) :=
  do (l, h) <- literal_list vs empty_heap;
  createFunctionNode 8 func l h.

(** The table a front end builds for [((let (x 1) (y 2)) ...)]: [x] is bound
    first, [y] second, so [y] is the head and [x] the second entry. *)
Definition table_x_y : M (option ptr * heap) :=
  let (one, h) := createNumberNode 1 INT_TYPE empty_heap in
  let (x, h) := createSymbol (Some "x") (Some one) h in
  do (t, h) <- addSymbolToTable 8 (Some x) None h;
  let (two, h) := createNumberNode 2 INT_TYPE h in
  let (y, h) := createSymbol (Some "y") (Some two) h in
  addSymbolToTable 8 (Some y) t h.

(** [table_x_y], then a second binding of [x]. *)
Definition table_x_y_x : M (option ptr * heap) :=
  do (t, h) <- table_x_y;
  let (three, h) := createNumberNode 3 INT_TYPE h in
  let (x', h) := createSymbol (Some "x") (Some three) h in
  addSymbolToTable 8 (Some x') t h.

(** A table with the one entry [x], then a second binding of [x]. *)
Definition table_x_x : M (option ptr * heap) :=
  let (one, h) := createNumberNode 1 INT_TYPE empty_heap in
  let (x, h) := createSymbol (Some "x") (Some one) h in
  do (t, h) <- addSymbolToTable 8 (Some x) None h;
  let (two, h) := createNumberNode 2 INT_TYPE h in
  let (x', h) := createSymbol (Some "x") (Some two) h in
  addSymbolToTable 8 (Some x') t h.

(** [(sub 5 2 y)] with [y] bound nowhere.  Blocks: 1 the symbol [y],
    2 the literal 2, 3 the literal 5, 4 the call. *)
Definition sub_5_2_y : M (ptr * heap) :=
  do (y, h) <- createSymbolNode "y" empty_heap;
  let (two, h) := createNumberNode 2 INT_TYPE h in
  do (l, h) <- addExpressionToList (Some two) (Some y) h;
  let (five, h) := createNumberNode 5 INT_TYPE h in
  do (l, h) <- addExpressionToList (Some five) l h;
  createFunctionNode 8 SUB_FUNC l h.

(** [((let (x 1)) (sub x ((let (x 2)) x)))], built in the order a bottom-up
    front end reduces it.  Blocks: 1 the literal 1, 2 the outer entry [x],
    3 the outer reference to [x], 4 the literal 2, 5 the inner entry [x],
    6 the inner reference to [x], 7 the inner scope, 8 the call,
    9 the outer scope. *)
Definition nested_scopes : M (ptr * heap) :=
  let (one, h) := createNumberNode 1 INT_TYPE empty_heap in
  let (e1, h) := createSymbol (Some "x") (Some one) h in
  do (t1, h) <- addSymbolToTable 8 (Some e1) None h;
  do (outer_x, h) <- createSymbolNode "x" h;
  let (two, h) := createNumberNode 2 INT_TYPE h in
  let (e2, h) := createSymbol (Some "x") (Some two) h in
  do (t2, h) <- addSymbolToTable 8 (Some e2) None h;
  do (inner_x, h) <- createSymbolNode "x" h;
  do (inner, h) <- createScopeNode 8 t2 (Some inner_x) h;
  do (l, h) <- addExpressionToList (Some outer_x) (Some inner) h;
  do (call, h) <- createFunctionNode 8 SUB_FUNC l h;
  createScopeNode 8 t1 (Some call) h.

(** [((let (x 1)) y)].  Blocks: 1 the literal 1, 2 the entry [x],
    3 the reference to [y], 4 the scope. *)
Definition unbound_y : M (ptr * heap) :=
  let (one, h) := createNumberNode 1 INT_TYPE empty_heap in
  let (e1, h) := createSymbol (Some "x") (Some one) h in
  do (t1, h) <- addSymbolToTable 8 (Some e1) None h;
  do (y, h) <- createSymbolNode "y" h;
  createScopeNode 8 t1 (Some y) h.

(** ** The stores the closed programs leave, computed once *)

Definition sub_5_2_heap : heap :=
  Eval vm_compute in heap_of (call_of_literals SUB_FUNC [Int 5; Int 2]).

Definition sub_5_2_5_heap : heap :=
  Eval vm_compute in heap_of (call_of_literals SUB_FUNC [Int 5; Double 2.5]).

Definition sub_5_2_y_heap : heap := Eval vm_compute in heap_of sub_5_2_y.

Definition exp2_3_heap : heap :=
  Eval vm_compute in heap_of (call_of_literals EXP2_FUNC [Int 3]).

Definition add_3_4_1_5_heap : heap :=
  Eval vm_compute in heap_of (call_of_literals ADD_FUNC [Int 3; Int 4; Double 1.5]).

Definition nested_scopes_heap : heap := Eval vm_compute in heap_of nested_scopes.

Definition unbound_y_heap : heap := Eval vm_compute in heap_of unbound_y.

(** ** Tables with an entry that has no name *)





(** ** Closed forms for the further statements *)

(** The functions of one operand. *)
Definition one_operand (func : FUNC_TYPE) : bool :=
  match func with
  | NEG_FUNC | ABS_FUNC | EXP_FUNC | EXP2_FUNC | LOG_FUNC | SQRT_FUNC | CBRT_FUNC => true
  | _ => false
  end.

(** What each function returns when no operand is linked: NaN for the
    functions of one operand, zero for the others. *)
Definition no_operand_value (func : FUNC_TYPE) : RET_VAL :=
  if one_operand func then NAN_RET_VAL else ZERO_RET_VAL.

Definition no_operand_warning (func : FUNC_TYPE) : string :=
  func_name func ++ " called with no operands, "
  ++ (if one_operand func then "NAN returned" else "0 returned").

(** What a function of one operand returns for the operand value [num]. *)
Definition one_operand_result (lm : libm) (func : FUNC_TYPE) (num : RET_VAL) : RET_VAL :=
  match func with
  | NEG_FUNC => {| type := type num; value := - value num |}
  | ABS_FUNC => {| type := type num; value := abs (value num) |}
  | EXP_FUNC => {| type := DOUBLE_TYPE; value := exp lm (value num) |}
  | EXP2_FUNC =>
    {| type := if exp2 lm (value num) <? 0 then DOUBLE_TYPE else type num;
       value := exp2 lm (value num) |}
  | LOG_FUNC => {| type := DOUBLE_TYPE; value := log lm (value num) |}
  | SQRT_FUNC => {| type := DOUBLE_TYPE; value := sqrt (value num) |}
  | CBRT_FUNC => {| type := DOUBLE_TYPE; value := cbrt lm (value num) |}
  | _ => NAN_RET_VAL
  end.

(** [(sub y)] and [(neg 5 y)] with [y] bound nowhere, and [(hypot)]. *)
Definition sub_y : M (ptr * heap) :=
  do (y, h) <- createSymbolNode "y" empty_heap;
  createFunctionNode 8 SUB_FUNC (Some y) h.

Definition neg_5_y : M (ptr * heap) :=
  do (y, h) <- createSymbolNode "y" empty_heap;
  let (five, h) := createNumberNode 5 INT_TYPE h in
  do (l, h) <- addExpressionToList (Some five) (Some y) h;
  createFunctionNode 8 NEG_FUNC l h.

Definition sub_y_heap : heap := Eval vm_compute in heap_of sub_y.

Definition neg_5_y_heap : heap := Eval vm_compute in heap_of neg_5_y.

Definition neg_5_heap : heap :=
  Eval vm_compute in heap_of (call_of_literals NEG_FUNC [Int 5]).

Definition hypot_none_heap : heap :=
  Eval vm_compute in heap_of (call_of_literals HYPOT_FUNC []).

(** [(neg (neg 5))].  Blocks: 1 the literal, 2 the inner call, 3 the
    outer call. *)
Definition neg_neg_5 : M (ptr * heap) :=
  do (inner, h) <- call_of_literals NEG_FUNC [Int 5];
  createFunctionNode 8 NEG_FUNC (Some inner) h.

Definition neg_neg_5_heap : heap := Eval vm_compute in heap_of neg_neg_5.

Definition abs_minus_5_heap : heap :=
  Eval vm_compute in heap_of (call_of_literals ABS_FUNC [Double (-5)]).

(** One turn of the loops of [evalHypot], [evalMax] and [evalMin] on the
    accumulator [result]. *)
Definition hypot_step (lm : libm) (result num : RET_VAL) : RET_VAL :=
  {| type := type result; value := value result + pow lm (value num) 2 |}.

Definition max_step (result num : RET_VAL) : RET_VAL :=
  if value result <? value num
  then {| type := type num; value := value num |}
  else result.

Definition min_step (result num : RET_VAL) : RET_VAL :=
  if value num <? value result
  then {| type := type num; value := value num |}
  else result.

(** The operands of a call return [results], in list order, with the
    fuel [fuel]. *)
Definition operands_return (lm : libm) (ind : NUM_TYPE) (h : heap) (fuel : nat)
    (l : list ptr) (results : list (list event * RET_VAL)) : Prop :=
  Forall2 (λ a r, eval lm ind h fuel (Some a) = (r.1, Return r.2)) l results.

Definition hypot_3_4_heap : heap :=
  Eval vm_compute in heap_of (call_of_literals HYPOT_FUNC [Int 3; Int 4]).

Definition max_1_3_5_2_heap : heap :=
  Eval vm_compute in heap_of (call_of_literals MAX_FUNC [Int 1; Double 3.5; Int 2]).

Definition min_4_3_5_2_heap : heap :=
  Eval vm_compute in heap_of (call_of_literals MIN_FUNC [Int 4; Double 3.5; Int 2]).

(** The allocator's next address is not in use. *)
Definition brk_free (h : heap) : Prop :=
  ∀ a : ptr, (brk h ≤ a)%positive → nodes h !! a = None ∧ symbols h !! a = None.

(** The operand list [1 -> 2] of two literals, without a call.  Blocks:
    1 the literal 2, 2 the literal 1. *)
Definition list_1_2_heap : heap :=
  Eval vm_compute in heap_of (literal_list [Int 1; Int 2] empty_heap).

(** A store with the one literal 1, at block 1. *)
Definition literal_1_heap : heap := (createNumberNode 1 INT_TYPE empty_heap).2.

(** [h'] is [h] with the [parent] of the blocks at [S] set to [p], and
    nothing else changed. *)
Definition reparent (p : option ptr) (S : list ptr) (h h' : heap) : Prop :=
  symbols h' = symbols h ∧ brk h' = brk h
  ∧ (∀ a, a ∈ S → nodes h' !! a = with_parent p <$> nodes h !! a)
  ∧ (∀ a, a ∉ S → nodes h' !! a = nodes h !! a).

(** The store of [((let (x 1)) y)] before the scope node is made.
    Blocks: 1 the literal 1, 2 the entry [x], 3 the reference to [y]. *)
Definition before_scope_heap : heap :=
  heap_of (createSymbolNode "y"
             (createSymbol (Some "x") (Some 1%positive)
                (createNumberNode 1 INT_TYPE empty_heap).2).2).

(** The store with the literal 1 at block 1 and the entry [x] for it at
    block 2, not yet in a table; and the same with a second literal at
    block 3 and a second entry [x] for it at block 4. *)
Definition entry_x_heap : heap :=
  (createSymbol (Some "x") (Some 1%positive)
     (createNumberNode 1 INT_TYPE empty_heap).2).2.

Definition two_entries_x_heap : heap :=
  (createSymbol (Some "x") (Some 3%positive)
     (createNumberNode 2 INT_TYPE entry_x_heap).2).2.

(** [((let (id v)) id)] built in the store [h], in the order a bottom-up
    front end reduces it: the literal, the entry, the table, the
    reference, the scope. *)
Definition let_literal (fuel : nat) (id : string) (v : float) (t : NUM_TYPE)
    (h : heap) : M (ptr * heap) :=
  let (one, h) := createNumberNode v t h in
  let (e, h) := createSymbol (Some id) (Some one) h in
  do (table, h) <- addSymbolToTable fuel (Some e) None h;
  do (ref, h) <- createSymbolNode id h;
  createScopeNode fuel table (Some ref) h.

(** [(sub ((let) ) 2)] where the scope has no table and no child.
    Blocks: 1 the scope, 2 the literal 2, 3 the call. *)
Definition sub_empty_scope_2 : M (ptr * heap) :=
  do (s, h) <- createScopeNode 8 None None empty_heap;
  let (two, h) := createNumberNode 2 INT_TYPE h in
  do (l, h) <- addExpressionToList (Some s) (Some two) h;
  createFunctionNode 8 SUB_FUNC l h.

Definition sub_empty_scope_2_heap : heap := Eval vm_compute in heap_of sub_empty_scope_2.

(** [((let (x x)) x)]: the name is bound to a reference to itself.
    Blocks: 1 the bound reference, 2 the entry, 3 the body's reference,
    4 the scope. *)
Definition let_x_x : M (ptr * heap) :=
  do (bound, h) <- createSymbolNode "x" empty_heap;
  let (e, h) := createSymbol (Some "x") (Some bound) h in
  do (table, h) <- addSymbolToTable 8 (Some e) None h;
  do (ref, h) <- createSymbolNode "x" h;
  createScopeNode 8 table (Some ref) h.

Definition let_x_x_heap : heap := Eval vm_compute in heap_of let_x_x.

(** ** Laws of the effect layer *)

Lemma bind_Return {A B} (out : list event) (a : A) (k : A → M B) :
  bind (out, Return a) k = ((out ++ (k a).1)%list, (k a).2).
Proof. unfold bind. destruct (k a); reflexivity. Qed.

Lemma bind_ret {A B} (a : A) (k : A → M B) : bind (ret a) k = k a.
Proof. unfold ret. rewrite bind_Return. destruct (k a); reflexivity. Qed.

Lemma bind_warning {B} (msg : string) (k : unit → M B) :
  bind (warning msg) k = (Warning msg :: (k tt).1, (k tt).2).
Proof. unfold warning. rewrite bind_Return. reflexivity. Qed.

Lemma bind_assoc {A B C} (m : M A) (f : A → M B) (g : B → M C) :
  bind (bind m f) g = bind m (λ a, bind (f a) g).
Proof.
  destruct m as [out [a| | |]]; simpl; try reflexivity.
  destruct (f a) as [out1 [b| | |]]; simpl; try reflexivity.
  destruct (g b) as [out2 r]. by rewrite app_assoc.
Qed.

Lemma load_Some (h : heap) (a : ptr) (n : AST_NODE) :
  nodes h !! a = Some n → load h (Some a) = ret n.
Proof. intros E. unfold load. by rewrite E. Qed.

Lemma load_sym_Some (h : heap) (a : ptr) (e : SYMBOL_TABLE_NODE) :
  symbols h !! a = Some e → load_sym h (Some a) = ret e.
Proof. intros E. unfold load_sym. by rewrite E. Qed.

Lemma eval_unfold lm ind h fuel a n :
  nodes h !! a = Some n →
  eval lm ind h (S fuel) (Some a) =
    match node_type (data n) with
    | NUM_NODE_TYPE => evalNumNode h (Some a)
    | FUNC_NODE_TYPE => evalFuncNode lm ind h (eval lm ind h fuel) fuel (Some a)
    | SCOPE_NODE_TYPE => evalScope h (eval lm ind h fuel) (Some a)
    | SYM_NODE_TYPE => evalSymbolNode h (eval lm ind h fuel) fuel (Some a)
    end.
Proof. intros E. cbn [eval]. rewrite (load_Some _ _ _ E), bind_ret. reflexivity. Qed.

Lemma eval_call lm ind h fuel f func oplist :
  call_node h f func oplist →
  eval lm ind h (S fuel) (Some f) =
    match func with
    | NEG_FUNC => evalNeg h (eval lm ind h fuel) oplist
    | ADD_FUNC => evalAdd ind h (eval lm ind h fuel) fuel oplist
    | ABS_FUNC => evalAbs h (eval lm ind h fuel) oplist
    | SUB_FUNC => evalSub h (eval lm ind h fuel) oplist
    | MULT_FUNC => evalMult h (eval lm ind h fuel) oplist
    | DIV_FUNC => evalDiv h (eval lm ind h fuel) oplist
    | REMAINDER_FUNC => evalRemainder lm h (eval lm ind h fuel) oplist
    | EXP_FUNC => evalExp lm h (eval lm ind h fuel) oplist
    | EXP2_FUNC => evalExp2 lm h (eval lm ind h fuel) oplist
    | POW_FUNC => evalPow lm h (eval lm ind h fuel) oplist
    | LOG_FUNC => evalLog lm h (eval lm ind h fuel) oplist
    | SQRT_FUNC => evalSqrt h (eval lm ind h fuel) oplist
    | CBRT_FUNC => evalCbrt lm h (eval lm ind h fuel) oplist
    | HYPOT_FUNC => evalHypot lm ind h (eval lm ind h fuel) fuel oplist
    | MIN_FUNC => evalMin ind h (eval lm ind h fuel) fuel oplist
    | MAX_FUNC => evalMax ind h (eval lm ind h fuel) fuel oplist
    | CUSTOM_FUNC => ret NAN_RET_VAL
    end.
Proof.
  intros (n & E & D). rewrite (eval_unfold _ _ _ _ _ _ E), D. cbn [node_type].
  unfold evalFuncNode. rewrite (load_Some _ _ _ E), bind_ret, D. reflexivity.
Qed.

(** ** More fuel

    A call that returns with some fuel returns the same, after the same
    events, with any larger fuel. *)

Lemma returns_as_refl {A} (m : M A) : returns_as m m.
Proof. by intros out a. Qed.

Lemma returns_as_out_of_fuel {A} (m : M A) : returns_as out_of_fuel m.
Proof. intros out a. discriminate. Qed.

Lemma returns_as_bind {A B} (m m' : M A) (k k' : A → M B) :
  returns_as m m' → (∀ a, returns_as (k a) (k' a)) →
  returns_as (bind m k) (bind m' k').
Proof.
  intros Hm Hk out b. destruct m as [o1 [a| | |]]; cbn; try discriminate.
  destruct (k a) as [o2 r] eqn:Ek. intros [= <- ->].
  rewrite (Hm _ _ eq_refl). cbn. by rewrite (Hk _ _ _ Ek).
Qed.

Local Ltac returns_as_step :=
  first
    [ assumption
    | apply returns_as_refl
    | apply returns_as_out_of_fuel
    | apply returns_as_bind; [|intros ?]
    | match goal with
      | |- returns_as (match ?x with _ => _ end) _ => destruct x
      | |- returns_as (if ?x then _ else _) _ => destruct x
      | H : ∀ p, returns_as (?ev p) (?ev' p) |- returns_as (?ev _) (?ev' _) => apply H
      end ].

Local Ltac returns_as_auto := repeat returns_as_step.

Section MoreFuel.

Variables (lm : libm) (ind : NUM_TYPE) (h : heap).
Variables ev ev' : option ptr → M RET_VAL.
Hypothesis Hev : ∀ p, returns_as (ev p) (ev' p).

Lemma evalAdd_loop_mono fuel fuel' :
  fuel ≤ fuel' → ∀ oplist acc,
  returns_as (evalAdd_loop h ev fuel oplist acc) (evalAdd_loop h ev' fuel' oplist acc).
Proof.
  revert fuel'. induction fuel as [|fuel IH]; intros [|fuel'] Hle oplist acc;
    try lia; destruct oplist; cbn [evalAdd_loop]; returns_as_auto.
  apply IH. lia.
Qed.

Lemma evalHypot_loop_mono fuel fuel' :
  fuel ≤ fuel' → ∀ oplist acc,
  returns_as (evalHypot_loop lm h ev fuel oplist acc)
             (evalHypot_loop lm h ev' fuel' oplist acc).
Proof.
  revert fuel'. induction fuel as [|fuel IH]; intros [|fuel'] Hle oplist acc;
    try lia; destruct oplist; cbn [evalHypot_loop]; returns_as_auto.
  apply IH. lia.
Qed.

Lemma evalMin_loop_mono fuel fuel' :
  fuel ≤ fuel' → ∀ oplist acc,
  returns_as (evalMin_loop h ev fuel oplist acc) (evalMin_loop h ev' fuel' oplist acc).
Proof.
  revert fuel'. induction fuel as [|fuel IH]; intros [|fuel'] Hle oplist acc;
    try lia; destruct oplist; cbn [evalMin_loop]; returns_as_auto.
  apply IH. lia.
Qed.

Lemma evalMax_loop_mono fuel fuel' :
  fuel ≤ fuel' → ∀ oplist acc,
  returns_as (evalMax_loop h ev fuel oplist acc) (evalMax_loop h ev' fuel' oplist acc).
Proof.
  revert fuel'. induction fuel as [|fuel IH]; intros [|fuel'] Hle oplist acc;
    try lia; destruct oplist; cbn [evalMax_loop]; returns_as_auto.
  apply IH. lia.
Qed.

Lemma evalSymbolNode_table_mono fuel fuel' id :
  fuel ≤ fuel' → ∀ table,
  returns_as (evalSymbolNode_table h ev fuel table id)
             (evalSymbolNode_table h ev' fuel' table id).
Proof.
  revert fuel'. induction fuel as [|fuel IH]; intros [|fuel'] Hle table;
    try lia; destruct table; cbn [evalSymbolNode_table]; returns_as_auto.
  apply IH. lia.
Qed.

Lemma evalSymbolNode_scopes_mono fuel fuel' id turns turns' :
  fuel ≤ fuel' → turns ≤ turns' → ∀ currScope,
  returns_as (evalSymbolNode_scopes h ev turns fuel currScope id)
             (evalSymbolNode_scopes h ev' turns' fuel' currScope id).
Proof.
  intros Hfuel. revert turns'.
  induction turns as [|turns IH]; intros [|turns'] Hle currScope;
    try lia; destruct currScope; cbn [evalSymbolNode_scopes]; returns_as_auto;
    try (by apply evalSymbolNode_table_mono); apply IH; lia.
Qed.

Lemma evalFuncNode_mono fuel fuel' node :
  fuel ≤ fuel' →
  returns_as (evalFuncNode lm ind h ev fuel node) (evalFuncNode lm ind h ev' fuel' node).
Proof.
  intros Hle. unfold evalFuncNode. destruct node; returns_as_auto;
    unfold evalNeg, evalAdd, evalAbs, evalSub, evalMult, evalDiv, evalRemainder,
      evalExp, evalExp2, evalPow, evalLog, evalSqrt, evalCbrt, evalHypot, evalMin,
      evalMax;
    returns_as_auto;
    first [ by apply evalAdd_loop_mono | by apply evalHypot_loop_mono
          | by apply evalMin_loop_mono | by apply evalMax_loop_mono ].
Qed.

Lemma evalScope_mono node : returns_as (evalScope h ev node) (evalScope h ev' node).
Proof. unfold evalScope. destruct node; returns_as_auto. Qed.

Lemma evalSymbolNode_mono fuel fuel' node :
  fuel ≤ fuel' →
  returns_as (evalSymbolNode h ev fuel node) (evalSymbolNode h ev' fuel' node).
Proof.
  intros Hle. unfold evalSymbolNode. destruct node; returns_as_auto.
  by apply evalSymbolNode_scopes_mono.
Qed.

End MoreFuel.

Lemma eval_mono lm ind h fuel fuel' :
  fuel ≤ fuel' → ∀ node,
  returns_as (eval lm ind h fuel node) (eval lm ind h fuel' node).
Proof.
  revert fuel'. induction fuel as [|fuel IH]; intros [|fuel'] Hle node; try lia;
    cbn [eval]; [apply returns_as_out_of_fuel..|].
  assert (Hev : ∀ p, returns_as (eval lm ind h fuel p) (eval lm ind h fuel' p))
    by (intros p; apply IH; lia).
  destruct node; [|apply returns_as_refl].
  apply returns_as_bind; [apply returns_as_refl|]. intros n.
  destruct (node_type (data n)).
  - apply returns_as_refl.
  - apply evalFuncNode_mono; [done | lia].
  - apply evalSymbolNode_mono; [done | lia].
  - by apply evalScope_mono.
Qed.

(** ** Symbol tables *)

(** When the head has another name the loop of [findSymbol] runs to the
    end of the table, whatever the later entries are named. *)
Lemma findSymbol_loop_miss fuel h id t e s :
  load_sym h t = ret e → sym_id e = Some s → String.eqb id s = false →
  ∀ es cur, table_seg h cur es None → length es ≤ fuel →
  findSymbol_loop fuel h (Some id) t cur = ret None.
Proof.
  intros Ht Es Ne. induction fuel as [|fuel IH]; intros es cur Hseg Hlen.
  - destruct es; [|simpl in Hlen; lia]. simpl in Hseg. subst cur. reflexivity.
  - destruct es as [|e' es].
    + simpl in Hseg. subst cur. reflexivity.
    + destruct Hseg as (a & -> & Ha & Hseg). cbn [findSymbol_loop].
      rewrite Ht, bind_ret, Es. cbn [strcmp_eq0]. rewrite bind_ret, Ne.
      rewrite (load_sym_Some _ _ _ Ha), bind_ret.
      apply (IH es); [exact Hseg | simpl in Hlen; lia].
Qed.

(** On a table whose head is named, [findSymbol] answers from the head
    alone: the head when its name is the searched one, [NULL] otherwise. *)
Lemma findSymbol_head_only fuel h id a e s es :
  table_seg h (Some a) (e :: es) None → sym_id e = Some s →
  length (e :: es) ≤ fuel →
  findSymbol fuel h (Some id) (Some a) =
    ret (if String.eqb id s then Some a else None).
Proof.
  intros Hseg Es Hlen. unfold findSymbol.
  destruct (String.eqb id s) eqn:Q.
  - destruct fuel as [|fuel]; [simpl in Hlen; lia|].
    destruct Hseg as (a' & [= <-] & Ha & _). cbn [findSymbol_loop].
    rewrite (load_sym_Some _ _ _ Ha), bind_ret, Es. cbn [strcmp_eq0].
    by rewrite bind_ret, Q.
  - pose proof Hseg as (a' & [= <-] & Ha & _).
    eapply findSymbol_loop_miss; eauto using load_sym_Some.
Qed.

Example table_x_y_ids :
  (do (t, h) <- table_x_y; ret (table_ids 8 h t)) = ([], Return [Some "y"; Some "x"]).
Proof. vm_compute. reflexivity. Qed.

(** Re-binding the head of a table: one warning, one entry. *)
Example table_x_x_ids :
  (do (t, h) <- table_x_x; ret (table_ids 8 h t))
  = ([Warning "Duplicate assignment to symbol"], Return [Some "x"]).
Proof. vm_compute. reflexivity. Qed.

(** C1, on the code: in the table of [((let (x 1) (y 2)) ...)], whose entries
    are [y] and then [x], [findSymbol] finds the head [y], and answers
    [NULL] for [x], the name of the second entry: the loop compares with
    [symbolTable->id], the head, on every turn. *)
Theorem findSymbol_misses_second_entry :
  (do (t, h) <- table_x_y; ret (table_ids 8 h t)) = ([], Return [Some "y"; Some "x"])
  ∧ (do (t, h) <- table_x_y; do found <- findSymbol 8 h (Some "y") t; ret (found, t))
    = ([], Return (Some 4%positive, Some 4%positive))
  ∧ (do (t, h) <- table_x_y; findSymbol 8 h (Some "x") t) = ([], Return None)
  ∧ (do (t, h) <- table_x_y; findSymbol 8 h None t) = ([], Return None).
Proof. repeat split; vm_compute; reflexivity. Qed.

(** C2, on the code: binding [x] again in the table whose entries are [y]
    and then [x] emits no diagnostic and returns a table with the three
    entries [x], [y], [x]: the lookup of [addSymbolToTable] is
    [findSymbol], which misses every entry after the head. *)
Theorem addSymbolToTable_duplicates_second_entry :
  (do (t, h) <- table_x_y_x; ret (table_ids 8 h t))
  = ([], Return [Some "x"; Some "y"; Some "x"]).
Proof. vm_compute. reflexivity. Qed.

(** C10: [addSymbolToTable] with a [NULL] new entry and a table [t] that is
    not [NULL] returns [NULL], not [t]; it emits nothing and leaves the
    store as it was. *)
Theorem addSymbolToTable_null_entry (fuel : nat) (t : ptr) (h : heap) :
  addSymbolToTable fuel None (Some t) h = ([], Return (None, h)).
Proof. reflexivity. Qed.

(** ** The closed programs and their stores *)

Example sub_5_2_built :
  call_of_literals SUB_FUNC [Int 5; Int 2] = ([], Return (3%positive, sub_5_2_heap)).
Proof. vm_compute. reflexivity. Qed.

Example sub_5_2_5_built :
  call_of_literals SUB_FUNC [Int 5; Double 2.5] = ([], Return (3%positive, sub_5_2_5_heap)).
Proof. vm_compute. reflexivity. Qed.

Example sub_5_2_y_built : sub_5_2_y = ([], Return (4%positive, sub_5_2_y_heap)).
Proof. vm_compute. reflexivity. Qed.

Example exp2_3_built :
  call_of_literals EXP2_FUNC [Int 3] = ([], Return (2%positive, exp2_3_heap)).
Proof. vm_compute. reflexivity. Qed.

Example add_3_4_1_5_built :
  call_of_literals ADD_FUNC [Int 3; Int 4; Double 1.5]
  = ([], Return (4%positive, add_3_4_1_5_heap)).
Proof. vm_compute. reflexivity. Qed.

Example nested_scopes_built : nested_scopes = ([], Return (9%positive, nested_scopes_heap)).
Proof. vm_compute. reflexivity. Qed.

Example unbound_y_built : unbound_y = ([], Return (4%positive, unbound_y_heap)).
Proof. vm_compute. reflexivity. Qed.

(** The whole of [((let (x 1)) (sub x ((let (x 2)) x)))] is [1 - 2]. *)
Example nested_scopes_value :
  eval sample_libm NO_TYPE nested_scopes_heap 6 (Some 9%positive) = ([], Return (Int (-1))).
Proof. vm_compute. reflexivity. Qed.

(** ** The two-operand functions: sub, mult, div, remainder, pow *)

Lemma promoted_double t1 t2 :
  t1 = DOUBLE_TYPE ∨ t2 = DOUBLE_TYPE → promoted t1 t2 = DOUBLE_TYPE.
Proof. intros [-> | ->]; [reflexivity | by destruct t1]. Qed.

Lemma promoted_int : promoted INT_TYPE INT_TYPE = INT_TYPE.
Proof. reflexivity. Qed.

Section TwoOperands.

Variables (lm : libm) (h : heap) (ev : option ptr → M RET_VAL).
Variables (a b : ptr) (na nb : AST_NODE).
Hypothesis Ha : nodes h !! a = Some na.
Hypothesis Hab : next na = Some b.
Hypothesis Hb : nodes h !! b = Some nb.

Local Ltac run_two_operands :=
  unfold two_operand_call, load; rewrite Ha; cbn [bind ret app]; rewrite Hab;
  destruct (ev (Some a)) as [o1 [v1| | |]]; cbn [bind]; try reflexivity;
  destruct (ev (Some b)) as [o2 [v2| | |]]; cbn [bind]; try reflexivity;
  rewrite Hb; cbn [bind ret app]; unfold extra_operands, promoted;
  destruct (next nb); cbn; reflexivity.

Lemma evalSub_two :
  evalSub h ev (Some a)
  = two_operand_call lm SUB_FUNC (next nb) (ev (Some a)) (ev (Some b)).
Proof. unfold evalSub. run_two_operands. Qed.

Lemma evalMult_two :
  evalMult h ev (Some a)
  = two_operand_call lm MULT_FUNC (next nb) (ev (Some a)) (ev (Some b)).
Proof. unfold evalMult. run_two_operands. Qed.

Lemma evalDiv_two :
  evalDiv h ev (Some a)
  = two_operand_call lm DIV_FUNC (next nb) (ev (Some a)) (ev (Some b)).
Proof. unfold evalDiv. run_two_operands. Qed.

Lemma evalRemainder_two :
  evalRemainder lm h ev (Some a)
  = two_operand_call lm REMAINDER_FUNC (next nb) (ev (Some a)) (ev (Some b)).
Proof. unfold evalRemainder. run_two_operands. Qed.

Lemma evalPow_two :
  evalPow lm h ev (Some a)
  = two_operand_call lm POW_FUNC (next nb) (ev (Some a)) (ev (Some b)).
Proof. unfold evalPow. run_two_operands. Qed.

End TwoOperands.

(** A call of a two-operand function with at least two operands linked. *)
Lemma eval_two_operands lm ind h fuel f func a na b nb :
  two_operand func = true →
  call_node h f func (Some a) →
  nodes h !! a = Some na → next na = Some b → nodes h !! b = Some nb →
  eval lm ind h (S fuel) (Some f)
  = two_operand_call lm func (next nb)
      (eval lm ind h fuel (Some a)) (eval lm ind h fuel (Some b)).
Proof.
  intros Hf Hc Ha Hab Hb. rewrite (eval_call _ _ _ _ _ _ _ Hc).
  destruct func; try discriminate Hf.
  - eapply evalSub_two; eauto.
  - eapply evalMult_two; eauto.
  - eapply evalDiv_two; eauto.
  - eapply evalRemainder_two; eauto.
  - eapply evalPow_two; eauto.
Qed.

(** C5: a call of sub, mult, div, remainder or pow with exactly two
    operands that return [v1] and [v2] returns, with any fuel that is
    enough for the two, a value whose [value] is the operation on the two
    values and whose [type] is [DOUBLE_TYPE] when either operand's is and
    [INT_TYPE] when both are [INT_TYPE]; it prints what the two
    evaluations print and nothing more. *)
Theorem two_operand_result lm ind h f func a na b nb fuel1 o1 v1 fuel2 o2 v2 fuel :
  two_operand func = true →
  call_node h f func (Some a) →
  nodes h !! a = Some na → next na = Some b →
  nodes h !! b = Some nb → next nb = None →
  eval lm ind h fuel1 (Some a) = (o1, Return v1) →
  eval lm ind h fuel2 (Some b) = (o2, Return v2) →
  fuel1 ≤ fuel → fuel2 ≤ fuel →
  ∃ r, eval lm ind h (S fuel) (Some f) = ((o1 ++ o2)%list, Return r)
       ∧ value r = operation lm func (value v1) (value v2)
       ∧ (type v1 = DOUBLE_TYPE ∨ type v2 = DOUBLE_TYPE → type r = DOUBLE_TYPE)
       ∧ (type v1 = INT_TYPE → type v2 = INT_TYPE → type r = INT_TYPE).
Proof.
  intros Hf Hc Ha Hab Hb Hend E1 E2 Hle1 Hle2.
  apply (eval_mono _ _ _ _ _ Hle1) in E1. apply (eval_mono _ _ _ _ _ Hle2) in E2.
  rewrite (eval_two_operands _ _ _ _ _ _ _ _ _ _ Hf Hc Ha Hab Hb), E1, E2, Hend.
  eexists. split; [|split; [|split]].
  - cbn. by rewrite app_nil_r.
  - reflexivity.
  - apply promoted_double.
  - intros -> ->. reflexivity.
Qed.

(** [(sub 5 2)] is [{Int, 3}] and [(sub 5 2.5)] is [{Double, 2.5}]. *)
Lemma two_operand_result_witness :
  (∃ r, eval sample_libm NO_TYPE sub_5_2_heap 2
          (Some 3%positive) = ([], Return r)
        ∧ value r = 3 ∧ type r = INT_TYPE)
  ∧ (∃ r, eval sample_libm NO_TYPE sub_5_2_5_heap 2
          (Some 3%positive) = ([], Return r)
        ∧ value r = 2.5 ∧ type r = DOUBLE_TYPE).
Proof.
  split.
  - destruct (two_operand_result sample_libm NO_TYPE sub_5_2_heap
               3%positive SUB_FUNC 2%positive _ 1%positive _
               1 [] (Int 5) 1 [] (Int 2) 1
               eq_refl (ex_intro _ _ (conj eq_refl eq_refl))
               eq_refl eq_refl eq_refl eq_refl eq_refl eq_refl (le_n 1) (le_n 1))
      as (r & E & V & _ & T).
    exists r. split; [exact E|]. split; [rewrite V; vm_compute; reflexivity|].
    apply T; reflexivity.
  - destruct (two_operand_result sample_libm NO_TYPE sub_5_2_5_heap
               3%positive SUB_FUNC 2%positive _ 1%positive _
               1 [] (Int 5) 1 [] (Double 2.5) 1
               eq_refl (ex_intro _ _ (conj eq_refl eq_refl))
               eq_refl eq_refl eq_refl eq_refl eq_refl eq_refl (le_n 1) (le_n 1))
      as (r & E & V & T & _).
    exists r. split; [exact E|]. split; [rewrite V; vm_compute; reflexivity|].
    apply T. right. reflexivity.
Defined.

(** C8: a call of sub, mult, div, remainder or pow at [f] with a third
    operand [c] linked behaves as the call [f'] of the same function on
    two operands that evaluate like the first two of [f]: the same
    outcome, and, when the call returns, the same events followed by the
    one warning.  Nothing is assumed of [c] and of what follows it. *)
Theorem two_operand_extra_ignored lm ind func
    h fuel f a na b nb c h' fuel' f' a' na' b' nb' :
  two_operand func = true →
  call_node h f func (Some a) →
  nodes h !! a = Some na → next na = Some b →
  nodes h !! b = Some nb → next nb = Some c →
  call_node h' f' func (Some a') →
  nodes h' !! a' = Some na' → next na' = Some b' →
  nodes h' !! b' = Some nb' → next nb' = None →
  eval lm ind h fuel (Some a) = eval lm ind h' fuel' (Some a') →
  eval lm ind h fuel (Some b) = eval lm ind h' fuel' (Some b') →
  eval lm ind h (S fuel) (Some f)
  = match eval lm ind h' (S fuel') (Some f') with
    | (out, Return r) =>
      ((out ++ [Warning (func_name func ++ " called with too many operands, ignoring extra")])%list,
       Return r)
    | other => other
    end.
Proof.
  intros Hf Hc Ha Hab Hb Hbc Hc' Ha' Hab' Hb' Hend E1 E2.
  rewrite (eval_two_operands _ _ _ _ _ _ _ _ _ _ Hf Hc Ha Hab Hb).
  rewrite (eval_two_operands _ _ _ _ _ _ _ _ _ _ Hf Hc' Ha' Hab' Hb').
  rewrite E1, E2, Hbc, Hend. unfold two_operand_call.
  destruct (eval lm ind h' fuel' (Some a')) as [o1 [v1| | |]]; cbn [bind]; try reflexivity.
  destruct (eval lm ind h' fuel' (Some b')) as [o2 [v2| | |]]; cbn [bind]; try reflexivity.
  cbn [extra_operands]. by rewrite !app_nil_r, app_assoc.
Qed.

(** [(sub 5 2 y)] with [y] unbound is [(sub 5 2)] after one warning: the
    undefined symbol is never looked up. *)
Lemma two_operand_extra_ignored_witness :
  eval sample_libm NO_TYPE sub_5_2_y_heap 2 (Some 4%positive)
  = ([Warning "sub called with too many operands, ignoring extra"], Return (Int 3)).
Proof.
  etrans; [exact (two_operand_extra_ignored sample_libm NO_TYPE SUB_FUNC
             sub_5_2_y_heap 1 4%positive 3%positive _ 2%positive _ 1%positive
             sub_5_2_heap 1
             3%positive 2%positive _ 1%positive _
             eq_refl (ex_intro _ _ (conj eq_refl eq_refl)) eq_refl eq_refl eq_refl eq_refl
             (ex_intro _ _ (conj eq_refl eq_refl)) eq_refl eq_refl eq_refl eq_refl
             eq_refl eq_refl)|].
  vm_compute. reflexivity.
Defined.

(** ** The one-operand functions exp, exp2, log, sqrt, cbrt *)

Lemma eval_fractional lm ind h fuel f func a na :
  fractional func = true →
  call_node h f func (Some a) →
  nodes h !! a = Some na → next na = None →
  eval lm ind h (S fuel) (Some f)
  = do num <- eval lm ind h fuel (Some a);
    ret {| type := match func with
                   | EXP2_FUNC =>
                     if fractional_operation lm func (value num) <? 0
                     then DOUBLE_TYPE else type num
                   | _ => DOUBLE_TYPE
                   end;
           value := fractional_operation lm func (value num) |}.
Proof.
  intros Hf Hc Ha Hend. rewrite (eval_call _ _ _ _ _ _ _ Hc).
  destruct func; try discriminate Hf;
    [unfold evalExp | unfold evalExp2 | unfold evalLog | unfold evalSqrt | unfold evalCbrt];
    rewrite (load_Some _ _ _ Ha), bind_ret, Hend, bind_ret; try reflexivity.
  destruct (eval lm ind h fuel (Some a)) as [o [num| | |]]; cbn; try reflexivity.
  destruct (exp2 lm (value num) <? 0); reflexivity.
Qed.

(** C9: a call of exp2 with one operand that returns [num] returns, with
    any fuel that is enough for the operand, [exp2(num.value)], typed
    [DOUBLE_TYPE] when that value is below zero and typed as [num]
    otherwise; exp, log, sqrt and cbrt on the same operand return their
    value typed [DOUBLE_TYPE] whatever the type of [num] is. *)
Theorem exp2_type_rule lm ind h f func a na fuel1 o num fuel :
  fractional func = true →
  call_node h f func (Some a) →
  nodes h !! a = Some na → next na = None →
  eval lm ind h fuel1 (Some a) = (o, Return num) →
  fuel1 ≤ fuel →
  ∃ r, eval lm ind h (S fuel) (Some f) = (o, Return r)
       ∧ value r = fractional_operation lm func (value num)
       ∧ type r = match func with
                  | EXP2_FUNC => if exp2 lm (value num) <? 0 then DOUBLE_TYPE else type num
                  | _ => DOUBLE_TYPE
                  end.
Proof.
  intros Hf Hc Ha Hend E Hle. apply (eval_mono _ _ _ _ _ Hle) in E.
  rewrite (eval_fractional _ _ _ _ _ _ _ _ Hf Hc Ha Hend), E.
  eexists. split; [|split].
  - cbn. by rewrite app_nil_r.
  - reflexivity.
  - destruct func; reflexivity.
Qed.

(** [(exp2 3)] on the integer literal is [{Int, 8}]. *)
Lemma exp2_type_rule_witness :
  ∃ r, eval sample_libm NO_TYPE exp2_3_heap 2
         (Some 2%positive) = ([], Return r)
       ∧ value r = 8 ∧ type r = INT_TYPE.
Proof.
  destruct (exp2_type_rule sample_libm NO_TYPE exp2_3_heap
              2%positive EXP2_FUNC 1%positive _ 1 [] (Int 3) 1
              eq_refl (ex_intro _ _ (conj eq_refl eq_refl)) eq_refl eq_refl eq_refl
              (le_n 1))
    as (r & E & V & T).
  exists r. split; [exact E|]. split; [rewrite V | rewrite T]; vm_compute; reflexivity.
Defined.

(** ** add *)

Lemma evalAdd_loop_spec h ev :
  ∀ (l : list ptr) fuel oplist (results : list (list event * RET_VAL)) acc,
  operands h oplist l →
  Forall2 (λ a r, ev (Some a) = (r.1, Return r.2)) l results →
  length l ≤ fuel →
  evalAdd_loop h ev fuel oplist acc
  = (concat (map fst results), Return (fold_left add_step (map snd results) acc)).
Proof.
  induction l as [|a l IH]; intros fuel oplist results acc Hops Hres Hlen.
  - inversion Hres; subst. simpl in Hops. subst oplist. by destruct fuel.
  - inversion Hres as [|? [o v] ? results' Ea Hres']; subst.
    destruct Hops as (-> & n & Hn & Hops).
    destruct fuel as [|fuel]; [simpl in Hlen; lia|].
    cbn [evalAdd_loop]. simpl in Ea. rewrite Ea, bind_Return.
    rewrite (load_Some _ _ _ Hn), bind_ret.
    rewrite (IH fuel (next n) results' _ Hops Hres'); [reflexivity|].
    simpl in Hlen. lia.
Qed.

Lemma last_nonempty {A} (l : list A) (x d d' : A) :
  List.last (x :: l) d = List.last (x :: l) d'.
Proof.
  revert x. induction l as [|y l IH]; intros x; [reflexivity|].
  change (List.last (y :: l) d = List.last (y :: l) d'). apply IH.
Qed.

Lemma fold_add_step (vs : list RET_VAL) (acc : RET_VAL) :
  value (fold_left add_step vs acc) = fold_left PrimFloat.add (map value vs) (value acc)
  ∧ type (fold_left add_step vs acc) = type (List.last vs acc).
Proof.
  revert acc. induction vs as [|v vs IH]; intros acc; [done|].
  destruct (IH (add_step acc v)) as [IHv IHt]. split; [exact IHv|].
  cbn [fold_left]. rewrite IHt. destruct vs as [|w vs]; [reflexivity|].
  change (List.last (v :: w :: vs) acc) with (List.last (w :: vs) acc).
  f_equal. apply last_nonempty.
Qed.

(** C6: a call of add whose operands, in list order, return the values
    [results] gives [{Int, 0}] after the warning when there are none, and
    otherwise the events of the evaluations in order and the value
    [((0 + v1) + v2) + ...] typed as the last operand's value. *)
Theorem add_result lm ind h fuel f oplist (l : list ptr)
    (results : list (list event * RET_VAL)) :
  call_node h f ADD_FUNC oplist →
  operands h oplist l →
  Forall2 (λ a r, eval lm ind h fuel (Some a) = (r.1, Return r.2)) l results →
  length l ≤ fuel →
  eval lm ind h (S fuel) (Some f)
  = match results with
    | [] => ([Warning "add called with no operands, 0 returned"], Return ZERO_RET_VAL)
    | _ =>
      (concat (map fst results),
       Return {| type := type (List.last (map snd results) ZERO_RET_VAL);
                 value := fold_left PrimFloat.add (map (λ r, value r.2) results) 0 |})
    end.
Proof.
  intros Hc Hops Hres Hlen. rewrite (eval_call _ _ _ _ _ _ _ Hc). unfold evalAdd.
  destruct l as [|a l].
  - inversion Hres; subst. simpl in Hops. by subst oplist.
  - pose proof Hops as (-> & _).
    rewrite (evalAdd_loop_spec _ _ _ _ _ _ _ Hops Hres Hlen).
    inversion Hres as [|? r ? results' _ _]; subst. f_equal. f_equal.
    destruct (fold_add_step (map snd (r :: results')) {| type := ind; value := 0 |})
      as [Hv Ht].
    destruct (fold_left add_step _ _) as [t v]. cbn [type value] in Hv, Ht. subst t v.
    f_equal; [f_equal; apply (last_nonempty (map snd results') r.2) | by rewrite map_map].
Qed.

(** [(add 3 4 1.5)] on the literals Int 3, Int 4, Double 1.5 is
    [{Double, 8.5}]. *)
Lemma add_result_witness :
  eval sample_libm NO_TYPE
    add_3_4_1_5_heap 4 (Some 4%positive)
  = ([], Return (Double 8.5)).
Proof.
  etrans.
  - apply (add_result sample_libm NO_TYPE
             add_3_4_1_5_heap 3
             4%positive (Some 3%positive) [3; 2; 1]%positive
             [([], Int 3); ([], Int 4); ([], Double 1.5)]).
    + eexists. split; reflexivity.
    + repeat (cbn [operands]; first [reflexivity | split | eexists]).
    + repeat constructor.
    + simpl. lia.
  - vm_compute. reflexivity.
Defined.

(** ** min and max *)

(** With one operand linked, [evalMax] and [evalMin] return the operand's
    value under the type [ind] that the unassigned [result.type] holds. *)
Lemma eval_min_max_one_operand lm ind h fuel f func a na o num :
  func = MAX_FUNC ∨ func = MIN_FUNC →
  call_node h f func (Some a) →
  nodes h !! a = Some na → next na = None →
  eval lm ind h fuel (Some a) = (o, Return num) →
  eval lm ind h (S fuel) (Some f) = (o, Return {| type := ind; value := value num |}).
Proof.
  intros Hf Hc Ha Hend E. rewrite (eval_call _ _ _ _ _ _ _ Hc).
  destruct Hf as [-> | ->]; [unfold evalMax | unfold evalMin];
    rewrite E, bind_Return, (load_Some _ _ _ Ha), bind_ret, Hend;
    destruct fuel; cbn; by rewrite app_nil_r.
Qed.

(** C7, on the code: [(max 1)] and [(min 1 2)] on integer literals return
    the value 1 typed with whatever the unassigned [result.type] holds:
    [evalMax] and [evalMin] copy the first operand's value into [result]
    and not its type; [(max 1 3.5 2)] is [{Double, 3.5}], the type having
    been assigned when 3.5 replaced 1. *)
Theorem min_max_first_operand_type (junk : NUM_TYPE) :
  eval sample_libm junk (heap_of (call_of_literals MAX_FUNC [Int 1])) 2 (Some 2%positive)
  = ([], Return {| type := junk; value := 1 |})
  ∧ eval sample_libm junk (heap_of (call_of_literals MIN_FUNC [Int 1; Int 2])) 3 (Some 3%positive)
    = ([], Return {| type := junk; value := 1 |})
  ∧ eval sample_libm junk
      (heap_of (call_of_literals MAX_FUNC [Int 1; Double 3.5; Int 2])) 4 (Some 4%positive)
    = ([], Return (Double 3.5))
  ∧ eval sample_libm junk (heap_of (call_of_literals MAX_FUNC [])) 2 (Some 1%positive)
    = ([Warning "max called with no operands, 0 returned"], Return ZERO_RET_VAL).
Proof. repeat split; vm_compute; reflexivity. Qed.

(** ** Symbols: the walk of [evalSymbolNode] *)

Lemma bind_ret_r {A} (m : M A) : bind m ret = m.
Proof. destruct m as [out [a| | |]]; cbn; by rewrite ?app_nil_r. Qed.

Section SymbolWalk.

Variables (h : heap) (ev : option ptr → M RET_VAL) (id : string).

Lemma strcmp_other (e : SYMBOL_TABLE_NODE) :
  other_name id e → strcmp_eq0 (sym_id e) (Some id) = ret false.
Proof.
  intros (s & -> & Hne). cbn. f_equal. f_equal. f_equal. by apply String.eqb_neq.
Qed.

Lemma strcmp_same (e : SYMBOL_TABLE_NODE) :
  sym_id e = Some id → strcmp_eq0 (sym_id e) (Some id) = ret true.
Proof. intros ->. cbn. by rewrite String.eqb_refl. Qed.



Variable fuel : nat.



End SymbolWalk.


Local Ltac read_store :=
  repeat first
    [ reflexivity
    | progress cbn [scope_seg table_seg operands length]
    | split
    | eexists ].






(** * Further properties of the code *)

(** ** Names of functions *)

(** [resolveFunc] maps each of the sixteen names to its function and the
    empty name to [CUSTOM_FUNC]; a name it maps to one of the sixteen
    functions is that function's name, letter for letter. *)
Theorem resolveFunc_names :
  (∀ func, resolveFunc (func_name func) = func)
  ∧ (∀ s, resolveFunc s = CUSTOM_FUNC ∨ func_name (resolveFunc s) = s).
Proof.
  split.
  - intros []; reflexivity.
  - intros s. unfold resolveFunc, funcNames. cbn [resolveFunc_loop].
    repeat match goal with
    | |- context [String.eqb ?n s] =>
      destruct (String.eqb_spec n s) as [<- | _]; [right; reflexivity|]
    end.
    left. reflexivity.
Qed.

(** The names are compared exactly: another case is another name. *)
Example resolveFunc_case : resolveFunc "Add" = CUSTOM_FUNC ∧ resolveFunc "add" = ADD_FUNC.
Proof. split; reflexivity. Qed.

(** ** Calls with operands missing *)

(** A call with no operand linked evaluates nothing: one warning, then
    NaN for the functions of one operand and [{Int, 0}] for the others;
    a call of [CUSTOM_FUNC] is NaN without a warning. *)
Theorem eval_no_operand lm ind h fuel f func :
  call_node h f func None →
  eval lm ind h (S fuel) (Some f)
  = match func with
    | CUSTOM_FUNC => ([], Return NAN_RET_VAL)
    | _ => ([Warning (no_operand_warning func)], Return (no_operand_value func))
    end.
Proof.
  intros Hc. rewrite (eval_call _ _ _ _ _ _ _ Hc). destruct func; reflexivity.
Qed.

(** [(hypot)]. *)
Lemma eval_no_operand_witness :
  eval sample_libm NO_TYPE hypot_none_heap 1 (Some 1%positive)
  = ([Warning "hypot called with no operands, 0 returned"], Return ZERO_RET_VAL).
Proof.
  exact (eval_no_operand sample_libm NO_TYPE hypot_none_heap 0 1%positive HYPOT_FUNC
           (ex_intro _ _ (conj eq_refl eq_refl))).
Defined.

(** sub, mult, div, remainder and pow with one operand linked return NaN
    after one warning, and never evaluate that operand. *)
Theorem two_operand_one_linked lm ind h fuel f func a na :
  two_operand func = true →
  call_node h f func (Some a) →
  nodes h !! a = Some na → next na = None →
  eval lm ind h (S fuel) (Some f)
  = ([Warning (func_name func ++ " called with 1 operand, NAN returned")],
     Return NAN_RET_VAL).
Proof.
  intros Hf Hc Ha Hend. rewrite (eval_call _ _ _ _ _ _ _ Hc).
  destruct func; try discriminate Hf;
    [unfold evalSub | unfold evalMult | unfold evalDiv | unfold evalRemainder
     | unfold evalPow];
    rewrite (load_Some _ _ _ Ha), bind_ret, Hend; reflexivity.
Qed.

(** [(sub y)] with [y] unbound: the symbol is not looked up. *)
Lemma two_operand_one_linked_witness :
  eval sample_libm NO_TYPE sub_y_heap 1 (Some 2%positive)
  = ([Warning "sub called with 1 operand, NAN returned"], Return NAN_RET_VAL).
Proof.
  exact (two_operand_one_linked sample_libm NO_TYPE sub_y_heap 0 2%positive SUB_FUNC
           1%positive _ eq_refl (ex_intro _ _ (conj eq_refl eq_refl)) eq_refl eq_refl).
Defined.

(** ** The functions of one operand *)

(** A call of a function of one operand with at least one linked: the
    warning first when more are linked, then the first operand. *)
Lemma eval_one_operand lm ind h fuel f func a na :
  one_operand func = true →
  call_node h f func (Some a) →
  nodes h !! a = Some na →
  eval lm ind h (S fuel) (Some f)
  = (match next na with
     | Some _ => warning (func_name func ++ " called with extra operands")
     | None => ret tt
     end;;
     do num <- eval lm ind h fuel (Some a);
     ret (one_operand_result lm func num)).
Proof.
  intros Hf Hc Ha. rewrite (eval_call _ _ _ _ _ _ _ Hc).
  destruct func; try discriminate Hf;
    [unfold evalNeg | unfold evalAbs | unfold evalExp | unfold evalExp2
     | unfold evalLog | unfold evalSqrt | unfold evalCbrt];
    rewrite (load_Some _ _ _ Ha), bind_ret; try reflexivity.
  f_equal. destruct (next na); cbn;
    (destruct (eval lm ind h fuel (Some a)) as [o [num| | |]]; cbn; try reflexivity;
     destruct (exp2 lm (value num) <? 0); reflexivity).
Qed.

(** A function of one operand called at [f] with more operands linked
    warns, and then behaves as the call [f'] of the same function on one
    operand that evaluates like the first of [f]: the operands after the
    first are never evaluated.  The warning comes before the evaluation,
    whatever its outcome. *)
Theorem one_operand_extra_ignored lm ind func
    h fuel f a na b h' fuel' f' a' na' :
  one_operand func = true →
  call_node h f func (Some a) → nodes h !! a = Some na → next na = Some b →
  call_node h' f' func (Some a') → nodes h' !! a' = Some na' → next na' = None →
  eval lm ind h fuel (Some a) = eval lm ind h' fuel' (Some a') →
  eval lm ind h (S fuel) (Some f)
  = (Warning (func_name func ++ " called with extra operands")
       :: (eval lm ind h' (S fuel') (Some f')).1,
     (eval lm ind h' (S fuel') (Some f')).2).
Proof.
  intros Hf Hc Ha Hab Hc' Ha' Hend E.
  rewrite (eval_one_operand _ _ _ _ _ _ _ _ Hf Hc Ha).
  rewrite (eval_one_operand _ _ _ _ _ _ _ _ Hf Hc' Ha').
  rewrite Hab, Hend, E, bind_ret, bind_warning. reflexivity.
Qed.

(** [(neg 5 y)] with [y] unbound is [(neg 5)] after the warning. *)
Lemma one_operand_extra_ignored_witness :
  eval sample_libm NO_TYPE neg_5_y_heap 2 (Some 3%positive)
  = ([Warning "neg called with extra operands"], Return (Int (-5))).
Proof.
  etrans; [exact (one_operand_extra_ignored sample_libm NO_TYPE NEG_FUNC
             neg_5_y_heap 1 3%positive 2%positive _ 1%positive
             neg_5_heap 1 2%positive 1%positive _
             eq_refl (ex_intro _ _ (conj eq_refl eq_refl)) eq_refl eq_refl
             (ex_intro _ _ (conj eq_refl eq_refl)) eq_refl eq_refl eq_refl)|].
  vm_compute. reflexivity.
Defined.

(** ** Signs *)

Lemma opp_involutive (x : float) : - - x = x.
Proof.
  apply Prim2SF_inj. rewrite !opp_spec.
  destruct (Prim2SF x); cbn; by rewrite ?negb_involutive.
Qed.

Lemma abs_not_negative (x : float) : (abs x <? 0) = false.
Proof. rewrite ltb_spec, abs_spec. by destruct (Prim2SF x). Qed.

(** neg of neg gives the operand back, type and value: on [(neg (neg e))],
    where [e] returns [num], the outer call returns [num] after the same
    events. *)
Theorem neg_neg lm ind h fuel f g ng a na o num :
  call_node h f NEG_FUNC (Some g) →
  nodes h !! g = Some ng → next ng = None → data ng = function NEG_FUNC (Some a) →
  nodes h !! a = Some na → next na = None →
  eval lm ind h fuel (Some a) = (o, Return num) →
  eval lm ind h (S (S fuel)) (Some f) = (o, Return num).
Proof.
  intros Hf Hg Hgend Hgd Ha Haend E.
  rewrite (eval_one_operand _ _ _ _ _ NEG_FUNC _ _ eq_refl Hf Hg), Hgend, bind_ret.
  rewrite (eval_one_operand _ _ _ _ _ NEG_FUNC a na eq_refl (ex_intro _ ng (conj Hg Hgd)) Ha).
  rewrite Haend, bind_ret, E. cbn. rewrite opp_involutive, !app_nil_r.
  by destruct num.
Qed.

Lemma neg_neg_witness :
  eval sample_libm NO_TYPE neg_neg_5_heap 3 (Some 3%positive) = ([], Return (Int 5)).
Proof.
  exact (neg_neg sample_libm NO_TYPE neg_neg_5_heap 1 3%positive 2%positive _
           1%positive _ [] (Int 5)
           (ex_intro _ _ (conj eq_refl eq_refl)) eq_refl eq_refl eq_refl
           eq_refl eq_refl eq_refl).
Defined.

(** abs and remainder never return a value below zero, whatever their
    operands are and however many are linked, and whatever [fmod] is. *)
Theorem abs_remainder_not_negative lm ind h fuel f func oplist out r :
  func = ABS_FUNC ∨ func = REMAINDER_FUNC →
  call_node h f func oplist →
  eval lm ind h fuel (Some f) = (out, Return r) →
  (value r <? 0) = false.
Proof.
  intros Hf Hc E. destruct fuel as [|fuel]; [discriminate|].
  rewrite (eval_call _ _ _ _ _ _ _ Hc) in E.
  destruct oplist as [a|]; [|destruct Hf as [-> | ->]; by injection E as _ <-].
  destruct (nodes h !! a) as [na|] eqn:Ha;
    [|destruct Hf as [-> | ->]; cbn in E; by rewrite Ha in E].
  destruct Hf as [-> | ->].
  - unfold evalAbs in E. rewrite (load_Some _ _ _ Ha), bind_ret in E.
    destruct (next na); cbn in E;
      (destruct (eval lm ind h fuel (Some a)) as [o [num| | |]]; cbn in E;
       try discriminate; injection E as _ <-; apply abs_not_negative).
  - destruct (next na) as [b|] eqn:Hab.
    + destruct (nodes h !! b) as [nb|] eqn:Hb.
      * rewrite (evalRemainder_two lm h _ a b na nb Ha Hab Hb) in E.
        unfold two_operand_call in E.
        destruct (eval lm ind h fuel (Some a)) as [o1 [v1| | |]]; cbn in E;
          try discriminate.
        destruct (eval lm ind h fuel (Some b)) as [o2 [v2| | |]]; cbn in E;
          try discriminate.
        injection E as _ <-. apply abs_not_negative.
      * unfold evalRemainder in E. rewrite (load_Some _ _ _ Ha), bind_ret, Hab in E.
        destruct (eval lm ind h fuel (Some a)) as [o1 [v1| | |]]; cbn in E;
          try discriminate.
        destruct (eval lm ind h fuel (Some b)) as [o2 [v2| | |]]; cbn in E;
          try discriminate.
        by rewrite Hb in E.
    + unfold evalRemainder in E. rewrite (load_Some _ _ _ Ha), bind_ret, Hab in E.
      by injection E as _ <-.
Qed.

(** [(abs -5.0)] is [{Double, 5}]. *)
Lemma abs_remainder_not_negative_witness :
  eval sample_libm NO_TYPE abs_minus_5_heap 2 (Some 2%positive)
  = ([], Return (Double 5))
  ∧ (value (Double 5) <? 0) = false.
Proof.
  split; [vm_compute; reflexivity|].
  exact (abs_remainder_not_negative sample_libm NO_TYPE abs_minus_5_heap 2
           2%positive ABS_FUNC (Some 1%positive) [] (Double 5)
           (or_introl eq_refl) (ex_intro _ _ (conj eq_refl eq_refl)) eq_refl).
Defined.

(** ** hypot, max and min *)

Section Loops.

Variables (h : heap) (ev : option ptr → M RET_VAL).

Lemma evalHypot_loop_spec lm :
  ∀ (l : list ptr) fuel oplist (results : list (list event * RET_VAL)) acc,
  operands h oplist l →
  Forall2 (λ a r, ev (Some a) = (r.1, Return r.2)) l results →
  length l ≤ fuel →
  evalHypot_loop lm h ev fuel oplist acc
  = (concat (map fst results), Return (fold_left (hypot_step lm) (map snd results) acc)).
Proof.
  induction l as [|a l IH]; intros fuel oplist results acc Hops Hres Hlen.
  - inversion Hres; subst. simpl in Hops. subst oplist. by destruct fuel.
  - inversion Hres as [|? [o v] ? results' Ea Hres']; subst.
    destruct Hops as (-> & n & Hn & Hops).
    destruct fuel as [|fuel]; [simpl in Hlen; lia|].
    cbn [evalHypot_loop]. simpl in Ea. rewrite Ea, bind_Return.
    rewrite (load_Some _ _ _ Hn), bind_ret.
    rewrite (IH fuel (next n) results' _ Hops Hres'); [reflexivity|].
    simpl in Hlen. lia.
Qed.

Lemma evalMax_loop_spec :
  ∀ (l : list ptr) fuel oplist (results : list (list event * RET_VAL)) acc,
  operands h oplist l →
  Forall2 (λ a r, ev (Some a) = (r.1, Return r.2)) l results →
  length l ≤ fuel →
  evalMax_loop h ev fuel oplist acc
  = (concat (map fst results), Return (fold_left max_step (map snd results) acc)).
Proof.
  induction l as [|a l IH]; intros fuel oplist results acc Hops Hres Hlen.
  - inversion Hres; subst. simpl in Hops. subst oplist. by destruct fuel.
  - inversion Hres as [|? [o v] ? results' Ea Hres']; subst.
    destruct Hops as (-> & n & Hn & Hops).
    destruct fuel as [|fuel]; [simpl in Hlen; lia|].
    cbn [evalMax_loop]. simpl in Ea. rewrite Ea, bind_Return.
    rewrite (load_Some _ _ _ Hn), bind_ret.
    rewrite (IH fuel (next n) results' _ Hops Hres'); [reflexivity|].
    simpl in Hlen. lia.
Qed.

Lemma evalMin_loop_spec :
  ∀ (l : list ptr) fuel oplist (results : list (list event * RET_VAL)) acc,
  operands h oplist l →
  Forall2 (λ a r, ev (Some a) = (r.1, Return r.2)) l results →
  length l ≤ fuel →
  evalMin_loop h ev fuel oplist acc
  = (concat (map fst results), Return (fold_left min_step (map snd results) acc)).
Proof.
  induction l as [|a l IH]; intros fuel oplist results acc Hops Hres Hlen.
  - inversion Hres; subst. simpl in Hops. subst oplist. by destruct fuel.
  - inversion Hres as [|? [o v] ? results' Ea Hres']; subst.
    destruct Hops as (-> & n & Hn & Hops).
    destruct fuel as [|fuel]; [simpl in Hlen; lia|].
    cbn [evalMin_loop]. simpl in Ea. rewrite Ea, bind_Return.
    rewrite (load_Some _ _ _ Hn), bind_ret.
    rewrite (IH fuel (next n) results' _ Hops Hres'); [reflexivity|].
    simpl in Hlen. lia.
Qed.

End Loops.

Lemma fold_hypot_step lm (vs : list RET_VAL) (acc : RET_VAL) :
  value (fold_left (hypot_step lm) vs acc)
  = fold_left (λ s v, s + pow lm v 2) (map value vs) (value acc).
Proof. revert acc. induction vs as [|v vs IH]; intros acc; [done|]. apply IH. Qed.

(** A call of hypot whose operands return [results]: [{Int, 0}] after the
    warning when there are none, and otherwise the square root of
    [((0 + pow(v1, 2)) + pow(v2, 2)) + ...], typed [DOUBLE_TYPE] whatever
    the types of the operands are. *)
Theorem hypot_result lm ind h fuel f oplist (l : list ptr)
    (results : list (list event * RET_VAL)) :
  call_node h f HYPOT_FUNC oplist →
  operands h oplist l →
  operands_return lm ind h fuel l results →
  length l ≤ fuel →
  eval lm ind h (S fuel) (Some f)
  = match results with
    | [] => ([Warning "hypot called with no operands, 0 returned"], Return ZERO_RET_VAL)
    | _ =>
      (concat (map fst results),
       Return {| type := DOUBLE_TYPE;
                 value := sqrt (fold_left (λ s v, s + pow lm v 2)
                                  (map (λ r, value r.2) results) 0) |})
    end.
Proof.
  intros Hc Hops Hres Hlen. rewrite (eval_call _ _ _ _ _ _ _ Hc). unfold evalHypot.
  destruct l as [|a l].
  - inversion Hres; subst. simpl in Hops. by subst oplist.
  - pose proof Hops as (-> & _).
    rewrite (evalHypot_loop_spec _ _ _ _ _ _ _ _ Hops Hres Hlen), bind_Return.
    inversion Hres as [|? r ? results' _ _]; subst.
    cbn [ret fst snd]. rewrite app_nil_r, fold_hypot_step, map_map. reflexivity.
Qed.

(** [(hypot 3 4)] on integer literals is [{Double, 5}]. *)
Lemma hypot_result_witness :
  eval sample_libm NO_TYPE hypot_3_4_heap 3 (Some 3%positive) = ([], Return (Double 5)).
Proof.
  etrans.
  - apply (hypot_result sample_libm NO_TYPE hypot_3_4_heap 2 3%positive
             (Some 2%positive) [2; 1]%positive [([], Int 3); ([], Int 4)]).
    + eexists. split; reflexivity.
    + repeat (cbn [operands]; first [reflexivity | split | eexists]).
    + repeat constructor.
    + simpl. lia.
  - vm_compute. reflexivity.
Defined.

(** The order [<] of binary64 is transitive and irreflexive. *)
Lemma SFltb_trans x y z :
  SFltb x y = true → SFltb y z = true → SFltb x z = true.
Proof.
  unfold SFltb, SFcompare.
  destruct x as [sx|sx| |sx mx ex], y as [sy|sy| |sy my ey], z as [sz|sz| |sz mz ez];
    try discriminate; try reflexivity;
    repeat match goal with s : bool |- _ => destruct s end;
    try discriminate; try reflexivity;
    change (Pos.compare_cont Eq) with Pos.compare;
    destruct (Z.compare_spec ex ey), (Z.compare_spec ey ez), (Z.compare_spec ex ez);
    try discriminate; try reflexivity; try lia;
    destruct (Pos.compare_spec mx my), (Pos.compare_spec my mz),
      (Pos.compare_spec mx mz);
    cbn; try discriminate; try reflexivity; try lia.
Qed.

Lemma ltb_trans (x y z : float) :
  (x <? y) = true → (y <? z) = true → (x <? z) = true.
Proof. rewrite !ltb_spec. apply SFltb_trans. Qed.

Lemma ltb_irrefl (x : float) : (x <? x) = false.
Proof.
  rewrite ltb_spec. unfold SFltb, SFcompare.
  destruct (Prim2SF x) as [s|s| |s m e]; try reflexivity; destruct s; try reflexivity;
    rewrite Z.compare_refl; change (Pos.compare_cont Eq) with Pos.compare;
    by rewrite Pos.compare_refl.
Qed.

(** What the scan of max keeps: the accumulator it started from or one of
    the values it saw, as it was; a value that is below none of them. *)
Lemma fold_max_step (vs : list RET_VAL) (acc : RET_VAL) :
  let r := fold_left max_step vs acc in
  (r = acc ∨ In r vs)
  ∧ (∀ u, (value r <? u) = true → (value acc <? u) = true)
  ∧ Forall (λ v, (value r <? value v) = false) vs.
Proof.
  revert acc. induction vs as [|v vs IH]; intros acc; cbn zeta.
  - split; [by left|]. split; [done | constructor].
  - destruct (IH (max_step acc v)) as (Hin & Hdom & Hall). cbn [fold_left].
    assert (Hstep : ∀ u, (value (max_step acc v) <? u) = true →
                         (value acc <? u) = true).
    { intros u. unfold max_step. destruct (value acc <? value v) eqn:Q; [|done].
      cbn. intros Hu. by apply (ltb_trans _ (value v)). }
    split; [|split].
    + destruct Hin as [-> | Hin]; [|right; by right].
      unfold max_step. destruct (value acc <? value v); [|by left].
      right. left. by destruct v.
    + intros u Hu. by apply Hstep, Hdom.
    + constructor; [|exact Hall].
      destruct (value (fold_left max_step vs (max_step acc v)) <? value v) eqn:Q;
        [|done].
      apply Hdom in Q. unfold max_step in Q.
      destruct (value acc <? value v) eqn:Q'; cbn in Q; [|congruence].
      by rewrite ltb_irrefl in Q.
Qed.

Lemma fold_min_step (vs : list RET_VAL) (acc : RET_VAL) :
  let r := fold_left min_step vs acc in
  (r = acc ∨ In r vs)
  ∧ (∀ u, (u <? value r) = true → (u <? value acc) = true)
  ∧ Forall (λ v, (value v <? value r) = false) vs.
Proof.
  revert acc. induction vs as [|v vs IH]; intros acc; cbn zeta.
  - split; [by left|]. split; [done | constructor].
  - destruct (IH (min_step acc v)) as (Hin & Hdom & Hall). cbn [fold_left].
    assert (Hstep : ∀ u, (u <? value (min_step acc v)) = true →
                         (u <? value acc) = true).
    { intros u. unfold min_step. destruct (value v <? value acc) eqn:Q; [|done].
      cbn. intros Hu. by apply (ltb_trans _ (value v)). }
    split; [|split].
    + destruct Hin as [-> | Hin]; [|right; by right].
      unfold min_step. destruct (value v <? value acc); [|by left].
      right. left. by destruct v.
    + intros u Hu. by apply Hstep, Hdom.
    + constructor; [|exact Hall].
      destruct (value v <? value (fold_left min_step vs (min_step acc v))) eqn:Q;
        [|done].
      apply Hdom in Q. unfold min_step in Q.
      destruct (value v <? value acc) eqn:Q'; cbn in Q; [|congruence].
      by rewrite ltb_irrefl in Q.
Qed.

(** A call of max whose operands return [first] and then [rest] returns a
    value that is below no operand's value: either the value of the first
    operand, typed by the unassigned [result.type], or one of the later
    operands, type and value as returned. *)
Theorem max_result lm ind h fuel f oplist (l : list ptr)
    (first : list event * RET_VAL) (rest : list (list event * RET_VAL)) :
  call_node h f MAX_FUNC oplist →
  operands h oplist l →
  operands_return lm ind h fuel l (first :: rest) →
  length l ≤ fuel →
  ∃ r, eval lm ind h (S fuel) (Some f) = (concat (map fst (first :: rest)), Return r)
       ∧ (r = {| type := ind; value := value first.2 |} ∨ In r (map snd rest))
       ∧ Forall (λ v, (value r <? value v) = false) (map snd (first :: rest)).
Proof.
  intros Hc Hops Hres Hlen. rewrite (eval_call _ _ _ _ _ _ _ Hc). unfold evalMax.
  inversion Hres as [|a [o1 v1] l' ? E1 Hres']; subst.
  destruct Hops as (-> & n & Hn & Hops). cbn [fst snd] in E1.
  rewrite E1, bind_Return, (load_Some _ _ _ Hn), bind_ret.
  rewrite (evalMax_loop_spec _ _ _ _ _ _ _ Hops Hres') by (simpl in Hlen; lia).
  destruct (fold_max_step (map snd rest) {| type := ind; value := value v1 |})
    as (Hin & Hdom & Hall).
  eexists. split; [reflexivity|]. split; [exact Hin|].
  constructor; [|exact Hall]. cbn [snd].
  destruct (value (fold_left max_step _ _) <? value v1) eqn:Q; [|done].
  apply Hdom in Q. cbn in Q. by rewrite ltb_irrefl in Q.
Qed.

(** [(max 1 3.5 2)] is [{Double, 3.5}]. *)
Lemma max_result_witness :
  ∃ r, eval sample_libm NO_TYPE max_1_3_5_2_heap 4 (Some 4%positive) = ([], Return r)
       ∧ (r = {| type := NO_TYPE; value := 1 |} ∨ In r [Double 3.5; Int 2])
       ∧ Forall (λ v, (value r <? value v) = false) [Int 1; Double 3.5; Int 2].
Proof.
  apply (max_result sample_libm NO_TYPE max_1_3_5_2_heap 3 4%positive
           (Some 3%positive) [3; 2; 1]%positive
           ([], Int 1) [([], Double 3.5); ([], Int 2)]).
  - eexists. split; reflexivity.
  - repeat (cbn [operands]; first [reflexivity | split | eexists]).
  - repeat constructor.
  - simpl. lia.
Defined.

(** A call of min whose operands return [first] and then [rest] returns a
    value that no operand's value is below: either the value of the first
    operand, typed by the unassigned [result.type], or one of the later
    operands, type and value as returned. *)
Theorem min_result lm ind h fuel f oplist (l : list ptr)
    (first : list event * RET_VAL) (rest : list (list event * RET_VAL)) :
  call_node h f MIN_FUNC oplist →
  operands h oplist l →
  operands_return lm ind h fuel l (first :: rest) →
  length l ≤ fuel →
  ∃ r, eval lm ind h (S fuel) (Some f) = (concat (map fst (first :: rest)), Return r)
       ∧ (r = {| type := ind; value := value first.2 |} ∨ In r (map snd rest))
       ∧ Forall (λ v, (value v <? value r) = false) (map snd (first :: rest)).
Proof.
  intros Hc Hops Hres Hlen. rewrite (eval_call _ _ _ _ _ _ _ Hc). unfold evalMin.
  inversion Hres as [|a [o1 v1] l' ? E1 Hres']; subst.
  destruct Hops as (-> & n & Hn & Hops). cbn [fst snd] in E1.
  rewrite E1, bind_Return, (load_Some _ _ _ Hn), bind_ret.
  rewrite (evalMin_loop_spec _ _ _ _ _ _ _ Hops Hres') by (simpl in Hlen; lia).
  destruct (fold_min_step (map snd rest) {| type := ind; value := value v1 |})
    as (Hin & Hdom & Hall).
  eexists. split; [reflexivity|]. split; [exact Hin|].
  constructor; [|exact Hall]. cbn [snd].
  destruct (value v1 <? value (fold_left min_step _ _)) eqn:Q; [|done].
  apply Hdom in Q. cbn in Q. by rewrite ltb_irrefl in Q.
Qed.

(** [(min 4 3.5 2)] is [{Int, 2}]. *)
Lemma min_result_witness :
  ∃ r, eval sample_libm NO_TYPE min_4_3_5_2_heap 4 (Some 4%positive) = ([], Return r)
       ∧ (r = {| type := NO_TYPE; value := 4 |} ∨ In r [Double 3.5; Int 2])
       ∧ Forall (λ v, (value v <? value r) = false) [Int 4; Double 3.5; Int 2].
Proof.
  apply (min_result sample_libm NO_TYPE min_4_3_5_2_heap 3 4%positive
           (Some 3%positive) [3; 2; 1]%positive
           ([], Int 4) [([], Double 3.5); ([], Int 2)]).
  - eexists. split; reflexivity.
  - repeat (cbn [operands]; first [reflexivity | split | eexists]).
  - repeat constructor.
  - simpl. lia.
Defined.

(** ** Linking the tree *)

Lemma operands_store_parent h p l a n q :
  nodes h !! a = Some n → operands h p l →
  operands (store a (with_parent q n) h) p l.
Proof.
  intros Ha. revert p. induction l as [|x l IH]; intros p; [done|].
  intros (-> & m & Hm & Hops). split; [done|]. cbn [store nodes].
  destruct (decide (x = a)) as [-> | Hne].
  - rewrite lookup_insert_eq. eexists. split; [done|].
    rewrite Hm in Ha. injection Ha as <-. by apply IH.
  - rewrite lookup_insert_ne by done. eexists. split; [done|]. by apply IH.
Qed.

(** [setParent] on a finite list returns; it sets the [parent] of every
    block of the list and changes nothing else: the other fields of those
    blocks, the blocks outside the list and the tables are as before. *)
Theorem setParent_effect fuel h head (l : list ptr) parent :
  operands h head l → length l ≤ fuel →
  ∃ h', setParent fuel head parent h = ([], Return h')
        ∧ symbols h' = symbols h ∧ brk h' = brk h
        ∧ (∀ a, a ∈ l → nodes h' !! a = with_parent parent <$> nodes h !! a)
        ∧ (∀ a, a ∉ l → nodes h' !! a = nodes h !! a).
Proof.
  revert fuel h head. induction l as [|x l IH]; intros fuel h head Hops Hlen.
  - simpl in Hops. subst head. exists h. destruct fuel; cbn; set_solver.
  - destruct Hops as (-> & n & Hn & Hops).
    destruct fuel as [|fuel]; [simpl in Hlen; lia|].
    cbn [setParent]. rewrite (load_Some _ _ _ Hn), bind_ret.
    destruct (IH fuel (store x (with_parent parent n) h) (next n))
      as (h' & E & Hsym & Hbrk & Hin & Hout).
    { by apply operands_store_parent. }
    { simpl in Hlen. lia. }
    exists h'. split; [exact E|]. split; [exact Hsym|]. split; [exact Hbrk|].
    cbn [store nodes] in Hin, Hout. split.
    + intros a Ha. destruct (decide (a ∈ l)) as [Hl | Hl].
      * rewrite (Hin a Hl). destruct (decide (a = x)) as [-> | Hne].
        -- by rewrite lookup_insert_eq, Hn.
        -- by rewrite lookup_insert_ne.
      * rewrite (Hout a Hl). apply elem_of_cons in Ha as [-> | Ha]; [|done].
        by rewrite lookup_insert_eq, Hn.
    + intros a Ha. apply not_elem_of_cons in Ha as [Hne Hl].
      rewrite (Hout a Hl). by rewrite lookup_insert_ne.
Qed.

(** On the list [1 -> 2] of two literals, blocks 2 and 1. *)
Lemma setParent_effect_witness :
  ∃ h', setParent 2 (Some 2%positive) (Some 9%positive) list_1_2_heap = ([], Return h')
        ∧ symbols h' = symbols list_1_2_heap ∧ brk h' = brk list_1_2_heap
        ∧ (∀ a, a ∈ [2; 1]%positive →
             nodes h' !! a = with_parent (Some 9%positive) <$> nodes list_1_2_heap !! a)
        ∧ (∀ a, a ∉ [2; 1]%positive → nodes h' !! a = nodes list_1_2_heap !! a).
Proof.
  apply (setParent_effect 2 list_1_2_heap (Some 2%positive) [2; 1]%positive
           (Some 9%positive)).
  - repeat (cbn [operands]; first [reflexivity | split | eexists]).
  - simpl. lia.
Defined.

Lemma operands_live h p (l : list ptr) a :
  operands h p l → a ∈ l → is_Some (nodes h !! a).
Proof.
  revert p. induction l as [|x l IH]; intros p Hops Ha; [set_solver|].
  destruct Hops as (-> & n & Hn & Hops).
  apply elem_of_cons in Ha as [-> | Ha]; [by eexists | by eapply IH].
Qed.

(** A list read in [h] is read the same in [h'] when its blocks kept
    their [next]. *)
Lemma operands_same_next h h' p (l : list ptr) :
  operands h p l →
  (∀ a n, a ∈ l → nodes h !! a = Some n →
     ∃ n', nodes h' !! a = Some n' ∧ next n' = next n) →
  operands h' p l.
Proof.
  revert p. induction l as [|x l IH]; intros p Hops Hsame; [done|].
  destruct Hops as (-> & n & Hn & Hops). split; [done|].
  destruct (Hsame x n) as (n' & Hn' & Hnext); [set_solver | done |].
  exists n'. split; [done|]. rewrite Hnext. apply IH; [done|].
  intros a m Ha. apply Hsame. set_solver.
Qed.

(** [addExpressionToList] links a live block in front of a list that does
    not hold it: the list read from the block is the block and then the
    old list, and no other block changes. *)
Theorem addExpressionToList_prepends h a n exprList (l : list ptr) :
  nodes h !! a = Some n → operands h exprList l → a ∉ l →
  ∃ h', addExpressionToList (Some a) exprList h = ([], Return (Some a, h'))
        ∧ operands h' (Some a) (a :: l)
        ∧ nodes h' !! a = Some (with_next exprList n)
        ∧ (∀ x, x ≠ a → nodes h' !! x = nodes h !! x)
        ∧ symbols h' = symbols h ∧ brk h' = brk h.
Proof.
  intros Ha Hops Hnot. unfold addExpressionToList.
  rewrite (load_Some _ _ _ Ha), bind_ret. eexists. split; [reflexivity|].
  cbn [store nodes symbols brk]. rewrite lookup_insert_eq.
  split; [|split; [done|split; [|done]]].
  - split; [done|]. eexists. split; [apply lookup_insert_eq|]. cbn [with_next next].
    apply (operands_same_next h); [done|]. intros x m Hx Hm.
    exists m. split; [|done]. cbn [store nodes].
    rewrite lookup_insert_ne; [done|]. set_solver.
  - intros x Hx. by rewrite lookup_insert_ne.
Qed.

(** Linking a third literal in front of the list [1 -> 2]. *)
Lemma addExpressionToList_prepends_witness :
  ∃ h', addExpressionToList (Some 3%positive) (Some 2%positive)
          (createNumberNode 0 INT_TYPE list_1_2_heap).2
        = ([], Return (Some 3%positive, h'))
        ∧ operands h' (Some 3%positive) [3; 2; 1]%positive.
Proof.
  destruct (addExpressionToList_prepends (createNumberNode 0 INT_TYPE list_1_2_heap).2
              3%positive _ (Some 2%positive) [2; 1]%positive eq_refl)
    as (h' & E & Hops & _).
  - repeat (cbn [operands]; first [reflexivity | split | eexists]).
  - intros Hin. repeat (apply elem_of_cons in Hin as [Hin | Hin]; [discriminate|]).
    by apply elem_of_nil in Hin.
  - exists h'. split; [exact E | exact Hops].
Defined.

(** [createFunctionNode] on a finite operand list, in a store whose next
    address is free, returns a new call node that holds the function and
    the list, with no parent, table or sibling; every operand of the list
    gets the call as [parent] and keeps its other fields; nothing else
    changes, and the next address is free again. *)
Theorem createFunctionNode_effect fuel func h oplist (l : list ptr) :
  brk_free h → operands h oplist l → length l ≤ fuel →
  ∃ h', createFunctionNode fuel func oplist h = ([], Return (brk h, h'))
        ∧ nodes h' !! brk h
          = Some {| parent := None; symbolTable := None;
                    data := function func oplist; next := None |}
        ∧ operands h' oplist l
        ∧ (∀ a, a ∈ l → nodes h' !! a = with_parent (Some (brk h)) <$> nodes h !! a)
        ∧ (∀ a, a ∉ l → a ≠ brk h → nodes h' !! a = nodes h !! a)
        ∧ symbols h' = symbols h
        ∧ brk_free h'.
Proof.
  intros Hfree Hops Hlen. unfold createFunctionNode, calloc_node.
  set (node := {| parent := None; symbolTable := None;
                  data := function func oplist; next := None |}).
  set (h1 := {| nodes := <[brk h := node]> (nodes h); symbols := symbols h;
                brk := Pos.succ (brk h) |}).
  assert (Hfresh : brk h ∉ l).
  { intros Hin. destruct (operands_live _ _ _ _ Hops Hin) as [m Hm].
    destruct (Hfree (brk h)) as [Hnone _]; [lia|]. unfold ptr in *. congruence. }
  assert (Hops1 : operands h1 oplist l).
  { apply (operands_same_next h); [done|]. intros a m Ha Hm. exists m.
    split; [|done]. cbn. rewrite lookup_insert_ne; [done|]. set_solver. }
  destruct (setParent_effect fuel h1 oplist l (Some (brk h)) Hops1 Hlen)
    as (h' & E & Hsym & Hbrk & Hin & Hout).
  rewrite E, bind_Return. cbn [ret fst snd]. exists h'.
  split; [reflexivity|]. split; [|split; [|split; [|split; [|split]]]].
  - rewrite (Hout _ Hfresh). cbn. apply lookup_insert_eq.
  - apply (operands_same_next h1); [done|]. intros a m Ha Hm.
    rewrite (Hin a Ha), Hm. by eexists.
  - intros a Ha. rewrite (Hin a Ha). cbn. rewrite lookup_insert_ne; [done|]. set_solver.
  - intros a Ha Hne. rewrite (Hout a Ha). cbn. by rewrite lookup_insert_ne.
  - done.
  - intros a Ha. rewrite Hbrk in Ha. cbn in Ha. rewrite Hsym. cbn.
    destruct (Hfree a) as [Hn Hs]; [lia|]. split; [|done]. unfold ptr in *.
    destruct (decide (a ∈ l)) as [Hl | Hl].
    + destruct (operands_live _ _ _ _ Hops Hl). unfold ptr in *. congruence.
    + rewrite (Hout a Hl). cbn. rewrite lookup_insert_ne; [done | lia].
Qed.

(** The allocator keeps its next address free. *)
Lemma brk_free_empty : brk_free empty_heap.
Proof. intros a _. split; apply lookup_empty. Qed.

Lemma brk_free_calloc_node n h : brk_free h → brk_free (calloc_node n h).2.
Proof.
  intros Hfree a Ha. cbn in *. destruct (Hfree a) as [Hn Hs]; [lia|].
  split; [|done]. rewrite lookup_insert_ne; [done | lia].
Qed.

Lemma brk_free_calloc_sym e h : brk_free h → brk_free (calloc_sym e h).2.
Proof.
  intros Hfree a Ha. cbn in *. destruct (Hfree a) as [Hn Hs]; [lia|].
  split; [done|]. rewrite lookup_insert_ne; [done | lia].
Qed.

(** [(neg 1)] built over the literal at block 1: the call is block 2. *)
Lemma createFunctionNode_effect_witness :
  ∃ h', createFunctionNode 1 NEG_FUNC (Some 1%positive) literal_1_heap
        = ([], Return (2%positive, h'))
        ∧ call_node h' 2%positive NEG_FUNC (Some 1%positive)
        ∧ (parent <$> nodes h' !! 1%positive) = Some (Some 2%positive).
Proof.
  destruct (createFunctionNode_effect 1 NEG_FUNC literal_1_heap (Some 1%positive)
              [1%positive])
    as (h' & E & Hnew & _ & Hin & _).
  - apply brk_free_calloc_node, brk_free_empty.
  - repeat (cbn [operands]; first [reflexivity | split | eexists]).
  - simpl. lia.
  - exists h'. split; [exact E|]. split.
    + eexists. split; [exact Hnew | reflexivity].
    + etrans; [exact (f_equal (fmap (M:=option) parent) (Hin 1%positive ltac:(set_solver)))|].
      reflexivity.
Defined.

Lemma elem_of_concat {A} (x : A) (ls : list (list A)) :
  x ∈ concat ls → ∃ l, l ∈ ls ∧ x ∈ l.
Proof.
  induction ls as [|l ls IH]; cbn [concat]; [by intros ?%elem_of_nil|].
  intros [Hx | Hx]%elem_of_app.
  - exists l. split; [apply elem_of_cons; by left | done].
  - destruct (IH Hx) as (l' & ? & ?). exists l'.
    split; [apply elem_of_cons; by right | done].
Qed.

Lemma with_parent_twice p n : with_parent p (with_parent p n) = with_parent p n.
Proof. reflexivity. Qed.

Lemma reparent_compose p S T h0 h1 h2 :
  reparent p S h0 h1 → reparent p T h1 h2 → reparent p (S ++ T) h0 h2.
Proof.
  intros (Hs1 & Hb1 & Hin1 & Hout1) (Hs2 & Hb2 & Hin2 & Hout2).
  split; [congruence|]. split; [congruence|]. split.
  - intros a Ha. destruct (decide (a ∈ T)) as [HT | HT].
    + rewrite (Hin2 a HT). destruct (decide (a ∈ S)) as [HS | HS].
      * rewrite (Hin1 a HS). by destruct (nodes h0 !! a).
      * by rewrite (Hout1 a HS).
    + rewrite (Hout2 a HT). apply Hin1. by apply elem_of_app in Ha as [Ha | Ha].
  - intros a Ha. apply not_elem_of_app in Ha as [HS HT].
    by rewrite (Hout2 a HT), (Hout1 a HS).
Qed.

Lemma reparent_operands p S h h' x (l : list ptr) :
  reparent p S h h' → operands h x l → operands h' x l.
Proof.
  intros (_ & _ & Hin & Hout) Hops. apply (operands_same_next h); [done|].
  intros a n _ Hn. destruct (decide (a ∈ S)) as [HS | HS].
  - rewrite (Hin a HS), Hn. by eexists.
  - rewrite (Hout a HS), Hn. by eexists.
Qed.

Lemma table_seg_symbols h h' t es t' :
  symbols h' = symbols h → table_seg h t es t' → table_seg h' t es t'.
Proof.
  intros Hs. revert t. induction es as [|e es IH]; intros t; [done|].
  intros (a & -> & Ha & Hseg). exists a. rewrite Hs. auto.
Qed.

Lemma setParent_reparent fuel h head (l : list ptr) parent :
  operands h head l → length l ≤ fuel →
  ∃ h', setParent fuel head parent h = ([], Return h') ∧ reparent parent l h h'.
Proof.
  intros Hops Hlen.
  destruct (setParent_effect fuel h head l parent Hops Hlen) as (h' & E & ?).
  by exists h'.
Qed.

Lemma createScopeNode_loop_reparent fuel node :
  ∀ (es : list SYMBOL_TABLE_NODE) (vls : list (list ptr)) turns t h,
  table_seg h t es None →
  Forall2 (λ e vl, operands h (sym_value e) vl) es vls →
  Forall (λ vl : list ptr, length vl ≤ fuel) vls →
  length es ≤ turns →
  ∃ h', createScopeNode_loop turns fuel t node h = ([], Return h')
        ∧ reparent (Some node) (concat vls) h h'.
Proof.
  induction es as [|e es IH]; intros vls turns t h Hseg Hvals Hfuel Hlen.
  - simpl in Hseg. subst t. inversion Hvals; subst. exists h.
    split; [by destruct turns|]. repeat split; set_solver.
  - destruct Hseg as (a & -> & Ha & Hseg).
    inversion Hvals as [|? vl ? vls' Hvl Hvals']; subst. inversion Hfuel; subst.
    destruct turns as [|turns]; [simpl in Hlen; lia|].
    cbn [createScopeNode_loop]. rewrite (load_sym_Some _ _ _ Ha), bind_ret.
    destruct (setParent_reparent fuel h (sym_value e) vl (Some node))
      as (h1 & E1 & R1); [done..|].
    rewrite E1, bind_Return.
    destruct (IH vls' turns (sym_next e) h1) as (h' & E & R).
    + apply (table_seg_symbols h); [apply R1 | done].
    + eapply Forall2_impl; [exact Hvals'|]. intros e' vl'.
      by apply (reparent_operands _ _ _ _ _ _ R1).
    + done.
    + simpl in Hlen. lia.
    + exists h'. rewrite E. split; [reflexivity|]. cbn [concat].
      by apply (reparent_compose _ _ _ _ h1).
Qed.

(** [createScopeNode] on a finite table whose values are finite lists and
    a finite child list, in a store whose next address is free, returns a
    new scope node that holds the table and the child, with no parent or
    sibling; every block of the value lists and of the child list gets
    the scope as [parent] and keeps its other fields; nothing else
    changes, and the next address is free again. *)
Theorem createScopeNode_effect fuel h symbolTable child
    (es : list SYMBOL_TABLE_NODE) (vls : list (list ptr)) (cl : list ptr) :
  brk_free h →
  table_seg h symbolTable es None →
  Forall2 (λ e vl, operands h (sym_value e) vl) es vls →
  operands h child cl →
  length es ≤ fuel → Forall (λ vl : list ptr, length vl ≤ fuel) vls →
  length cl ≤ fuel →
  ∃ h', createScopeNode fuel symbolTable child h = ([], Return (brk h, h'))
        ∧ nodes h' !! brk h
          = Some {| parent := None; symbolTable := symbolTable;
                    data := scope child; next := None |}
        ∧ (∀ a, a ∈ (concat vls ++ cl)%list →
             nodes h' !! a = with_parent (Some (brk h)) <$> nodes h !! a)
        ∧ (∀ a, a ∉ (concat vls ++ cl)%list → a ≠ brk h → nodes h' !! a = nodes h !! a)
        ∧ symbols h' = symbols h
        ∧ brk_free h'.
Proof.
  intros Hfree Hseg Hvals Hchild Hlen Hfuel Hlenc. unfold createScopeNode, calloc_node.
  set (node := {| parent := None; symbolTable := symbolTable;
                  data := scope child; next := None |}).
  set (h1 := {| nodes := <[brk h := node]> (nodes h); symbols := symbols h;
                brk := Pos.succ (brk h) |}).
  assert (Hkeep : ∀ x (l : list ptr), operands h x l → operands h1 x l ∧ brk h ∉ l).
  { intros x l Hops.
    assert (Hfresh : brk h ∉ l).
    { intros Hin. destruct (operands_live _ _ _ _ Hops Hin) as [m Hm].
      destruct (Hfree (brk h)) as [Hnone _]; [lia|]. congruence. }
    split; [|done]. apply (operands_same_next h); [done|]. intros a m Ha Hm.
    exists m. split; [|done]. cbn. rewrite lookup_insert_ne; [done|]. set_solver. }
  destruct (createScopeNode_loop_reparent fuel (brk h) es vls fuel symbolTable h1)
    as (h2 & E2 & R2).
  { by apply (table_seg_symbols h). }
  { eapply Forall2_impl; [exact Hvals|]. intros e vl Hops. by apply Hkeep. }
  { done. }
  { done. }
  rewrite E2, bind_Return.
  destruct (setParent_reparent fuel h2 child cl (Some (brk h))) as (h3 & E3 & R3).
  { apply (reparent_operands _ _ _ _ _ _ R2). by apply Hkeep. }
  { done. }
  rewrite E3. cbn [bind ret app]. exists h3. split; [reflexivity|].
  destruct (reparent_compose _ _ _ _ _ _ R2 R3) as (Hsym & Hbrk & Hin & Hout).
  assert (Hfresh : brk h ∉ (concat vls ++ cl)%list).
  { intros Hin'. apply elem_of_app in Hin' as [Hin' | Hin'].
    - apply elem_of_concat in Hin' as (vl & Hmem & Hvl).
      apply list_elem_of_lookup in Hmem as [i Hi].
      destruct (Forall2_lookup_r _ _ _ _ _ Hvals Hi) as (e & _ & Hops).
      by destruct (Hkeep _ _ Hops).
    - by destruct (Hkeep _ _ Hchild). }
  split; [|split; [|split; [|split]]].
  - rewrite (Hout _ Hfresh). cbn. apply lookup_insert_eq.
  - intros a Ha. rewrite (Hin a Ha). cbn. rewrite lookup_insert_ne; [done|].
    by intros <-.
  - intros a Ha Hne. rewrite (Hout a Ha). cbn. by rewrite lookup_insert_ne.
  - done.
  - intros a Ha. rewrite Hbrk in Ha. cbn in Ha. rewrite Hsym. cbn.
    destruct (Hfree a) as [Hn Hs]; [lia|]. split; [|done].
    assert (Hh1 : nodes h1 !! a = None) by (cbn; rewrite lookup_insert_ne; [done | lia]).
    destruct (decide (a ∈ (concat vls ++ cl)%list)) as [Hl | Hl].
    + by rewrite (Hin a Hl), Hh1.
    + by rewrite (Hout a Hl).
Qed.

(** The scope of [((let (x 1)) y)]: block 4, over the entry at block 2
    and the child at block 3; the literal and the child get it as parent. *)
Lemma createScopeNode_effect_witness :
  ∃ h', createScopeNode 1 (Some 2%positive) (Some 3%positive) before_scope_heap
        = ([], Return (4%positive, h'))
        ∧ nodes h' !! 4%positive
          = Some {| parent := None; symbolTable := Some 2%positive;
                    data := scope (Some 3%positive); next := None |}
        ∧ (parent <$> nodes h' !! 1%positive) = Some (Some 4%positive)
        ∧ (parent <$> nodes h' !! 3%positive) = Some (Some 4%positive).
Proof.
  destruct (createScopeNode_effect 1 before_scope_heap (Some 2%positive)
              (Some 3%positive)
              [{| sym_id := Some "x"; sym_value := Some 1%positive;
                  sym_next := None; sym_type := INT_TYPE |}]
              [[1%positive]] [3%positive])
    as (h' & E & Hnew & Hin & _).
  - apply brk_free_calloc_node, brk_free_calloc_sym, brk_free_calloc_node,
      brk_free_empty.
  - eexists. repeat split; reflexivity.
  - repeat constructor. eexists. split; reflexivity.
  - repeat (cbn [operands]; first [reflexivity | split | eexists]).
  - simpl. lia.
  - repeat constructor.
  - simpl. lia.
  - exists h'. split; [exact E|]. split; [exact Hnew|]. split.
    + etrans; [exact (f_equal (fmap (M:=option) parent)
                        (Hin 1%positive ltac:(set_solver)))|].
      reflexivity.
    + etrans; [exact (f_equal (fmap (M:=option) parent)
                        (Hin 3%positive ltac:(set_solver)))|].
      reflexivity.
Defined.

(** ** Binding a name *)

(** [findSymbol] answers a block only on its first turn: the head of the
    table, when the head has the searched name. *)
Lemma findSymbol_loop_Some fuel h s st :
  ∀ cur out o,
  findSymbol_loop fuel h (Some s) st cur = (out, Return (Some o)) →
  out = [] ∧ cur = Some o
  ∧ ∃ e, load_sym h st = ret e ∧ sym_id e = Some s.
Proof.
  induction fuel as [|fuel IH]; intros cur out o E.
  - by destruct cur.
  - destruct cur as [c|]; [|discriminate]. cbn [findSymbol_loop] in E.
    destruct (load_sym h st) as [o1 [e| | |]] eqn:Hst; try discriminate.
    assert (o1 = []) as ->.
    { unfold load_sym in Hst. destruct st as [t|]; [|discriminate].
      destruct (symbols h !! t); by injection Hst. }
    rewrite bind_Return in E. cbn [app] in E.
    destruct (sym_id e) as [s'|] eqn:Hid; [|discriminate].
    cbn [strcmp_eq0] in E. rewrite bind_ret in E.
    destruct (String.eqb_spec s s') as [<- | Hne].
    + injection E as <- <-. eauto.
    + destruct (load_sym h (Some c)) as [o2 [ce| | |]] eqn:Hc; try discriminate.
      rewrite bind_Return in E.
      destruct (findSymbol_loop fuel h (Some s) st (sym_next ce))
        as [o3 [[o'|]| | |]] eqn:Hrec; try discriminate.
      destruct (IH _ _ _ Hrec) as (_ & _ & e' & He' & Hid').
      injection He' as <-. congruence.
Qed.

(** After [addSymbolToTable] returned for a named new entry, the head of
    the table it returned has the new entry's name and the new entry's
    value, and [findSymbol] finds that head under the name: what was
    bound last is what a lookup sees. *)
Theorem addSymbolToTable_binds fuel h a nw s table out t' h' :
  symbols h !! a = Some nw → sym_id nw = Some s →
  addSymbolToTable fuel (Some a) table h = (out, Return (t', h')) →
  ∃ t e, t' = Some t ∧ symbols h' !! t = Some e
         ∧ sym_id e = Some s ∧ sym_value e = sym_value nw
         ∧ ∀ k, findSymbol (S k) h' (Some s) t' = ([], Return t').
Proof.
  intros Ha Hs E. unfold addSymbolToTable in E.
  rewrite (load_sym_Some _ _ _ Ha), bind_ret, Hs in E.
  destruct (findSymbol fuel h (Some s) table) as [o1 [[o|]| | |]] eqn:Hfind;
    try discriminate.
  - unfold findSymbol in Hfind.
    destruct (findSymbol_loop_Some _ _ _ _ _ _ _ Hfind) as (-> & -> & e & He & Hid).
    rewrite bind_Return, bind_warning, He, bind_ret in E. cbn [app] in E.
    destruct (free (sym_value e) h) as [o2 [h1| | |]] eqn:Hfree; try discriminate.
    assert (o2 = [] ∧ symbols h1 = symbols h) as [-> Hsym].
    { unfold free in Hfree. destruct (sym_value e) as [v|]; [|by injection Hfree as <- <-].
      destruct (nodes h !! v); [|discriminate]. by injection Hfree as <- <-. }
    rewrite bind_Return in E. cbn in E. injection E as <- <- <-.
    exists o, (with_sym_value (sym_value nw) e). cbn [store_sym symbols].
    rewrite lookup_insert_eq. repeat split; [done..|]. intros k.
    cbn [findSymbol findSymbol_loop]. unfold load_sym. cbn [store_sym symbols].
    rewrite lookup_insert_eq, bind_ret. cbn [with_sym_value sym_id]. rewrite Hid.
    cbn [strcmp_eq0]. by rewrite bind_ret, String.eqb_refl.
  - unfold findSymbol in Hfind. rewrite bind_Return in E. cbn in E.
    injection E as <- <- <-.
    exists a, (with_sym_next table nw). cbn [store_sym symbols].
    rewrite lookup_insert_eq. repeat split; [done..|]. intros k.
    cbn [findSymbol findSymbol_loop]. unfold load_sym. cbn [store_sym symbols].
    rewrite lookup_insert_eq, bind_ret. cbn [with_sym_next sym_id]. rewrite Hs.
    cbn [strcmp_eq0]. by rewrite bind_ret, String.eqb_refl.
Qed.

(** The entry [x] bound into the empty table. *)
Lemma addSymbolToTable_binds_witness :
  ∃ t e h', addSymbolToTable 1 (Some 2%positive) None entry_x_heap
            = ([], Return (Some t, h'))
            ∧ symbols h' !! t = Some e
            ∧ sym_id e = Some "x" ∧ sym_value e = Some 1%positive
            ∧ findSymbol 1 h' (Some "x") (Some t) = ([], Return (Some t)).
Proof.
  destruct (addSymbolToTable_binds 1 entry_x_heap 2%positive _ "x" None []
              (Some 2%positive) _ eq_refl eq_refl eq_refl)
    as (t & e & Ht & He & Hid & Hv & Hfind).
  injection Ht as <-.
  eexists 2%positive, e, _. split; [reflexivity|].
  split; [exact He|]. split; [exact Hid|]. split; [exact Hv | exact (Hfind 0%nat)].
Defined.

(** Binding the name of the head of a table again: one warning, the
    table returned as it was given, the head's value replaced by the new
    entry's value, and the block of the old value released. *)
Theorem addSymbolToTable_rebinds_head fuel h a nw s t e v n :
  symbols h !! a = Some nw → sym_id nw = Some s →
  symbols h !! t = Some e → sym_id e = Some s →
  sym_value e = Some v → nodes h !! v = Some n →
  addSymbolToTable (S fuel) (Some a) (Some t) h
  = ([Warning "Duplicate assignment to symbol"],
     Return (Some t,
             {| nodes := delete v (nodes h);
                symbols := <[t := with_sym_value (sym_value nw) e]> (symbols h);
                brk := brk h |})).
Proof.
  intros Ha Hs Ht Hid Hv Hn. unfold addSymbolToTable.
  rewrite (load_sym_Some _ _ _ Ha), bind_ret, Hs.
  cbn [findSymbol findSymbol_loop].
  rewrite (load_sym_Some _ _ _ Ht), !bind_ret, Hid. cbn [strcmp_eq0].
  rewrite bind_ret, String.eqb_refl, bind_ret, bind_warning.
  rewrite (load_sym_Some _ _ _ Ht), bind_ret, Hv. unfold free. rewrite Hn, bind_ret.
  reflexivity.
Qed.

(** The table [x = 1] and a second entry [x = 2]. *)
Lemma addSymbolToTable_rebinds_head_witness :
  ∃ h', addSymbolToTable 1 (Some 4%positive) (Some 2%positive) two_entries_x_heap
        = ([Warning "Duplicate assignment to symbol"], Return (Some 2%positive, h'))
        ∧ table_ids 2 h' (Some 2%positive) = [Some "x"]
        ∧ nodes h' !! 1%positive = None.
Proof.
  eexists. split; [|split].
  - exact (addSymbolToTable_rebinds_head 0 two_entries_x_heap 4%positive _ "x"
             2%positive _ 1%positive _ eq_refl eq_refl eq_refl eq_refl eq_refl eq_refl).
  - reflexivity.
  - reflexivity.
Defined.

(** ** Releasing a tree *)

(** [freeNode] only releases: when it returns, it printed nothing, the
    block it was called on is gone, every block still allocated was
    allocated before with the same content, and the tables are
    untouched. *)
Theorem freeNode_only_releases fuel :
  ∀ node h out h',
  freeNode fuel node h = (out, Return h') →
  out = [] ∧ symbols h' = symbols h ∧ brk h' = brk h
  ∧ (∀ x n, nodes h' !! x = Some n → nodes h !! x = Some n)
  ∧ (∀ a, node = Some a → nodes h' !! a = None).
Proof.
  induction fuel as [|fuel IH]; intros node h out h' E.
  - destruct node; [discriminate|]. injection E as <- <-. by repeat split.
  - destruct node as [a|]; [|injection E as <- <-; by repeat split].
    cbn [freeNode] in E. unfold load in E.
    destruct (nodes h !! a) as [n|] eqn:Hn; [|discriminate].
    rewrite bind_ret in E.
    remember (match data n with
              | function _ opList => freeNode fuel opList h
              | _ => ret h
              end) as inner eqn:Hinner.
    destruct inner as [o1 [h1| | |]]; try discriminate.
    assert (o1 = [] ∧ symbols h1 = symbols h ∧ brk h1 = brk h
            ∧ ∀ x m, nodes h1 !! x = Some m → nodes h !! x = Some m)
      as (-> & Hsym & Hbrk & Hsub).
    { destruct (data n); try (injection Hinner as -> ->; by repeat split).
      symmetry in Hinner.
      destruct (IH _ _ _ _ Hinner) as (? & ? & ? & ? & _). by repeat split. }
    rewrite bind_Return in E. cbn [app] in E. unfold free in E.
    destruct (nodes h1 !! a) eqn:Ha; [|discriminate].
    cbn in E. injection E as <- <-.
    cbn [nodes symbols brk]. repeat split; [done..| |].
    + intros x m Hx. apply lookup_delete_Some in Hx as [_ Hx]. by apply Hsub.
    + intros ? [= <-]. apply lookup_delete_eq.
Qed.

(** [(sub 5 2)]: after [freeNode] on the call, the call is gone. *)
Lemma freeNode_only_releases_witness :
  ∃ h', freeNode 2 (Some 3%positive) sub_5_2_heap = ([], Return h')
        ∧ nodes h' !! 3%positive = None.
Proof.
  eexists. split; [vm_compute; reflexivity|].
  eapply (freeNode_only_releases 2 (Some 3%positive) sub_5_2_heap []).
  - vm_compute. reflexivity.
  - reflexivity.
Defined.

(** [freeNode] on a node that is not a call releases that block and no
    other: the child and the table of a scope node stay allocated. *)
Theorem freeNode_not_call fuel h a n :
  nodes h !! a = Some n → node_type (data n) ≠ FUNC_NODE_TYPE →
  freeNode (S fuel) (Some a) h
  = ([], Return {| nodes := delete a (nodes h); symbols := symbols h; brk := brk h |}).
Proof.
  intros Hn Hty. cbn [freeNode]. rewrite (load_Some _ _ _ Hn), bind_ret.
  destruct (data n); try done; rewrite bind_ret; unfold free; by rewrite Hn.
Qed.

(** The scope of [((let (x 1)) y)]: its child, block 3, stays. *)
Lemma freeNode_not_call_witness :
  ∃ h', freeNode 1 (Some 4%positive) unbound_y_heap = ([], Return h')
        ∧ nodes h' !! 4%positive = None
        ∧ nodes h' !! 3%positive = nodes unbound_y_heap !! 3%positive
        ∧ nodes h' !! 1%positive = nodes unbound_y_heap !! 1%positive.
Proof.
  eexists. split.
  - apply (freeNode_not_call 0 unbound_y_heap 4%positive
             {| parent := None; symbolTable := Some 2%positive;
                data := scope (Some 3%positive); next := None |});
      [reflexivity | discriminate].
  - repeat split; reflexivity.
Defined.

(** [freeNode] on a call whose first operand is not a call releases the
    call and that operand, and nothing else: the operands linked after
    the first stay allocated. *)
Theorem freeNode_call_first_operand fuel h f func a n :
  call_node h f func (Some a) →
  nodes h !! a = Some n → node_type (data n) ≠ FUNC_NODE_TYPE → a ≠ f →
  freeNode (S (S fuel)) (Some f) h
  = ([], Return {| nodes := delete f (delete a (nodes h));
                   symbols := symbols h; brk := brk h |}).
Proof.
  intros (nf & Hf & Hd) Hn Hty Hne. cbn [freeNode].
  rewrite (load_Some _ _ _ Hf), bind_ret, Hd.
  change (freeNode (S fuel) (Some a) h)
    with (do n0 <- load h (Some a);
          do h1 <- match data n0 with
                   | function _ opList => freeNode fuel opList h
                   | _ => ret h
                   end;
          free (Some a) h1).
  rewrite (load_Some _ _ _ Hn), bind_ret.
  destruct (data n); try done; rewrite bind_ret; unfold free; rewrite Hn, bind_ret;
    cbn [nodes]; rewrite lookup_delete_ne, Hf by done; reflexivity.
Qed.

(** [(sub 5 2)]: the call, block 3, and the literal 5, block 2, go; the
    literal 2, block 1, stays. *)
Lemma freeNode_call_first_operand_witness :
  ∃ h', freeNode 2 (Some 3%positive) sub_5_2_heap = ([], Return h')
        ∧ nodes h' !! 3%positive = None ∧ nodes h' !! 2%positive = None
        ∧ nodes h' !! 1%positive = nodes sub_5_2_heap !! 1%positive.
Proof.
  eexists. split.
  - apply (freeNode_call_first_operand 0 sub_5_2_heap 3%positive SUB_FUNC 2%positive
             {| parent := Some 3%positive; symbolTable := None;
                data := number (Int 5); next := Some 1%positive |}).
    + eexists. split; reflexivity.
    + reflexivity.
    + discriminate.
    + discriminate.
  - repeat split; reflexivity.
Defined.

(** ** A binding and its reference *)

Lemma setParent_NULL fuel p h : setParent fuel None p h = ret h.
Proof. by destruct fuel. Qed.

Lemma createScopeNode_loop_NULL turns fuel node h :
  createScopeNode_loop turns fuel None node h = ret h.
Proof. by destruct turns. Qed.

Lemma calloc_node_spec n h a h' :
  calloc_node n h = (a, h') →
  a = brk h ∧ nodes h' = <[a := n]> (nodes h) ∧ symbols h' = symbols h
  ∧ brk h' = Pos.succ a.
Proof. by intros [= <- <-]. Qed.

Lemma calloc_sym_spec e h a h' :
  calloc_sym e h = (a, h') →
  a = brk h ∧ nodes h' = nodes h ∧ symbols h' = <[a := e]> (symbols h)
  ∧ brk h' = Pos.succ a.
Proof. by intros [= <- <-]. Qed.

(** Binding into the empty table links the entry to [NULL]. *)
Lemma addSymbolToTable_empty fuel h a nw :
  symbols h !! a = Some nw →
  addSymbolToTable fuel (Some a) None h
  = ret (Some a, store_sym a (with_sym_next None nw) h).
Proof.
  intros Ha. unfold addSymbolToTable. rewrite (load_sym_Some _ _ _ Ha), bind_ret.
  assert (findSymbol fuel h (sym_id nw) None = ret None) as ->.
  { unfold findSymbol. destruct (sym_id nw); [|done]. by destruct fuel. }
  by rewrite bind_ret.
Qed.

Lemma brk_free_store_sym a e h :
  is_Some (symbols h !! a) → brk_free h → brk_free (store_sym a e h).
Proof.
  intros [e' He'] Hfree x Hx. cbn in *. destruct (Hfree x Hx) as [Hn Hs].
  split; [done|]. rewrite lookup_insert_ne; [done|]. intros ->. congruence.
Qed.

(** Binding a literal to a name and referring to the name gives the
    literal back: for a name that fits the block [createSymbolNode]
    allocates for it, [((let (id v)) id)], built with the constructors in
    a store whose next address is free, evaluates to [v] with its type
    and prints nothing. *)
Theorem let_literal_round_trip lm ind h id v t fuel k :
  brk_free h →
  String.length id ≤ sizeof_char_ptr →
  (do (root, h') <- let_literal (S fuel) id v t h;
   eval lm ind h' (4 + k) (Some root))
  = ([], Return {| type := t; value := v |}).
Proof.
  intros Hfree Hfits. unfold let_literal.
  (* the literal *)
  unfold createNumberNode.
  set (N := {| parent := None; symbolTable := None;
               data := number {| type := t; value := v |}; next := None |}).
  pose proof (brk_free_calloc_node N h Hfree) as Hfree1.
  destruct (calloc_node N h) as [one h1] eqn:E1.
  apply calloc_node_spec in E1 as (-> & Hn1 & Hs1 & Hb1). cbn [snd] in Hfree1.
  (* the entry *)
  unfold createSymbol.
  set (E := {| sym_id := Some id; sym_value := Some (brk h); sym_next := None;
               sym_type := INT_TYPE |}).
  pose proof (brk_free_calloc_sym E h1 Hfree1) as Hfree2.
  destruct (calloc_sym E h1) as [e h2] eqn:E2.
  apply calloc_sym_spec in E2 as (-> & Hn2 & Hs2 & Hb2). cbn [snd] in Hfree2.
  (* the table *)
  assert (He : symbols h2 !! brk h1 = Some E) by (rewrite Hs2; apply lookup_insert_eq).
  rewrite (addSymbolToTable_empty _ _ _ _ He), bind_ret.
  pose proof (brk_free_store_sym (brk h1) (with_sym_next None E) h2
                (ex_intro _ _ He) Hfree2) as Hfree3.
  set (h3 := store_sym (brk h1) (with_sym_next None E) h2) in *.
  assert (Hn3 : nodes h3 = nodes h2) by done.
  assert (Hs3 : symbols h3 !! brk h1 = Some E).
  { unfold h3. cbn [store_sym symbols]. apply lookup_insert_eq. }
  assert (Hb3 : brk h3 = brk h2) by done.
  clearbody h3.
  (* the reference *)
  unfold createSymbolNode.
  replace (String.length id + 1 <=? sizeof_char_ptr + 1)%nat with true
    by (symmetry; apply Nat.leb_le; lia).
  rewrite bind_ret.
  set (R := {| parent := None; symbolTable := None; data := symbol id; next := None |}).
  pose proof (brk_free_calloc_node R h3 Hfree3) as Hfree4.
  destruct (calloc_node R h3) as [ref h4] eqn:E4.
  apply calloc_node_spec in E4 as (-> & Hn4 & Hs4 & Hb4). cbn [snd] in Hfree4.
  assert (Hne : brk h ≠ brk h3).
  { rewrite Hb3, Hb2, Hb1. generalize (brk h). unfold ptr. lia. }
  assert (Hone : nodes h4 !! brk h = Some N).
  { rewrite Hn4, lookup_insert_ne, Hn3, Hn2, Hn1 by done. apply lookup_insert_eq. }
  assert (Href : nodes h4 !! brk h3 = Some R) by (rewrite Hn4; apply lookup_insert_eq).
  assert (Hent : symbols h4 !! brk h1 = Some E) by (by rewrite Hs4).
  (* the scope *)
  destruct (createScopeNode_effect (S fuel) h4 (Some (brk h1)) (Some (brk h3))
              [E] [[brk h]] [brk h3])
    as (h5 & E5 & Hscope & Hin & _ & Hs5 & _).
  { done. }
  { by exists (brk h1). }
  { repeat constructor. by exists N. }
  { split; [done|]. by exists R. }
  { simpl. lia. }
  { constructor; [simpl; lia | constructor]. }
  { simpl. lia. }
  rewrite E5. change ([], Return (brk h4, h5)) with (ret (brk h4, h5)).
  rewrite bind_ret.
  assert (Hnum' : nodes h5 !! brk h = Some (with_parent (Some (brk h4)) N)).
  { rewrite (Hin (brk h)), Hone; [done|]. set_solver. }
  assert (Href' : nodes h5 !! brk h3 = Some (with_parent (Some (brk h4)) R)).
  { rewrite (Hin (brk h3)), Href; [done|]. set_solver. }
  assert (Hent' : symbols h5 !! brk h1 = Some E) by (by rewrite Hs5).
  (* the evaluation *)
  change (4 + k)%nat with (S (S (S (S k)))).
  rewrite (eval_unfold _ _ _ _ _ _ Hscope). cbn [node_type data]. unfold evalScope.
  rewrite (load_Some _ _ _ Hscope), bind_ret. cbn [data].
  rewrite (eval_unfold _ _ _ _ _ _ Href'). cbn [node_type data with_parent R].
  unfold evalSymbolNode.
  rewrite (load_Some _ _ _ Href'), bind_ret. cbn [data with_parent R evalSymbolNode_scopes].
  rewrite (load_Some _ _ _ Href'), bind_ret.
  cbn [symbolTable with_parent R evalSymbolNode_table parent]. rewrite !bind_ret.
  rewrite (load_Some _ _ _ Hscope), bind_ret. cbn [symbolTable evalSymbolNode_table].
  rewrite (load_sym_Some _ _ _ Hent'), bind_ret. cbn [sym_id E strcmp_eq0].
  rewrite bind_ret, String.eqb_refl. cbn [sym_value E].
  rewrite (eval_unfold _ _ _ _ _ _ Hnum'). cbn [node_type data with_parent N].
  unfold evalNumNode.
  rewrite (load_Some _ _ _ Hnum'), bind_ret. cbn [data with_parent N]. reflexivity.
Qed.

(** [((let (x 7.5)) x)] built in the empty store. *)
Lemma let_literal_round_trip_witness :
  (do (root, h') <- let_literal 1 "x" 7.5 DOUBLE_TYPE empty_heap;
   eval sample_libm NO_TYPE h' 4 (Some root))
  = ([], Return (Double 7.5)).
Proof.
  apply (let_literal_round_trip sample_libm NO_TYPE empty_heap "x" 7.5 DOUBLE_TYPE
           0 0 brk_free_empty).
  unfold sizeof_char_ptr. simpl. lia.
Defined.

(** A name of nine characters does not fit the block: the copy of the
    name in [createSymbolNode] writes past its end. *)
Example let_literal_long_name :
  let_literal 1 "remainder" 7.5 DOUBLE_TYPE empty_heap = ([], Undefined).
Proof. reflexivity. Qed.

(** ** Fatal errors *)

(** A scope node without a child ends the process: [evalScope] passes
    the [NULL] child to [eval], which reports it and exits. *)
Theorem scope_without_child_exits lm ind h fuel a n :
  nodes h !! a = Some n → data n = scope None →
  eval lm ind h (S (S fuel)) (Some a) = ([Error "NULL ast node passed into eval!"], Exit).
Proof.
  intros Hn Hd. rewrite (eval_unfold _ _ _ _ _ _ Hn), Hd. cbn [node_type].
  unfold evalScope. by rewrite (load_Some _ _ _ Hn), bind_ret, Hd.
Qed.

(** The scope at block 1 of [sub_empty_scope_2]. *)
Lemma scope_without_child_exits_witness :
  eval sample_libm NO_TYPE sub_empty_scope_2_heap 2 (Some 1%positive)
  = ([Error "NULL ast node passed into eval!"], Exit).
Proof.
  exact (scope_without_child_exits sample_libm NO_TYPE sub_empty_scope_2_heap 0
           1%positive _ eq_refl eq_refl).
Defined.

(** When the first operand of sub, mult, div, remainder or pow ends the
    process, the call ends there: the second operand is not evaluated and
    nothing more is printed. *)
Theorem two_operand_first_exits lm ind h fuel f func a na b nb out :
  two_operand func = true →
  call_node h f func (Some a) →
  nodes h !! a = Some na → next na = Some b → nodes h !! b = Some nb →
  eval lm ind h fuel (Some a) = (out, Exit) →
  eval lm ind h (S fuel) (Some f) = (out, Exit).
Proof.
  intros Hf Hc Ha Hab Hb E.
  by rewrite (eval_two_operands _ _ _ _ _ _ _ _ _ _ Hf Hc Ha Hab Hb), E.
Qed.

(** [(sub s 2)] where [s] is a scope without a child. *)
Lemma two_operand_first_exits_witness :
  eval sample_libm NO_TYPE sub_empty_scope_2_heap 3 (Some 3%positive)
  = ([Error "NULL ast node passed into eval!"], Exit).
Proof.
  exact (two_operand_first_exits sample_libm NO_TYPE sub_empty_scope_2_heap 2
           3%positive SUB_FUNC 1%positive _ 2%positive _ _
           eq_refl (ex_intro _ _ (conj eq_refl eq_refl)) eq_refl eq_refl eq_refl
           eq_refl).
Defined.

(** ** A binding that refers to itself *)

Section SelfReference.

Variables (h : heap) (ev : option ptr → M RET_VAL) (id : string).

(** With any fuel, a table that holds the name is walked up to its entry,
    unless the fuel runs out first. *)
Lemma evalSymbolNode_table_hit_any :
  ∀ before fuel t x e,
  table_seg h t before (Some x) → Forall (other_name id) before →
  symbols h !! x = Some e → sym_id e = Some id →
  evalSymbolNode_table h ev fuel t id = out_of_fuel
  ∨ evalSymbolNode_table h ev fuel t id = do v <- ev (sym_value e); ret (Some v).
Proof.
  induction before as [|e' before IH]; intros fuel t x e Hseg Hall Hx He.
  - simpl in Hseg. subst t. destruct fuel as [|fuel]; [by left|]. right.
    cbn [evalSymbolNode_table].
    by rewrite (load_sym_Some _ _ _ Hx), bind_ret, strcmp_same, bind_ret.
  - destruct Hseg as (a & -> & Ha & Hseg). inversion Hall; subst.
    destruct fuel as [|fuel]; [by left|]. cbn [evalSymbolNode_table].
    rewrite (load_sym_Some _ _ _ Ha), bind_ret, strcmp_other, bind_ret by done.
    by eapply IH.
Qed.

Lemma evalSymbolNode_table_miss_any :
  ∀ es fuel t,
  table_seg h t es None → Forall (other_name id) es →
  evalSymbolNode_table h ev fuel t id = out_of_fuel
  ∨ evalSymbolNode_table h ev fuel t id = ret None.
Proof.
  induction es as [|e es IH]; intros fuel t Hseg Hall.
  - simpl in Hseg. subst t. right. by destruct fuel.
  - destruct Hseg as (a & -> & Ha & Hseg). inversion Hall; subst.
    destruct fuel as [|fuel]; [by left|]. cbn [evalSymbolNode_table].
    rewrite (load_sym_Some _ _ _ Ha), bind_ret, strcmp_other, bind_ret by done.
    by apply IH.
Qed.

Lemma evalSymbolNode_scopes_any fuel b c before x e :
  nodes h !! b = Some c →
  table_seg h (symbolTable c) before (Some x) → Forall (other_name id) before →
  symbols h !! x = Some e → sym_id e = Some id →
  ∀ missed tables turns p,
  scope_seg h p missed (Some b) →
  Forall2 (no_binding h id) missed tables →
  evalSymbolNode_scopes h ev turns fuel p id = out_of_fuel
  ∨ evalSymbolNode_scopes h ev turns fuel p id = ev (sym_value e).
Proof.
  intros Hb Hbefore Hother Hx He.
  induction missed as [|m missed IH]; intros tables turns p Hseg Htab.
  - simpl in Hseg. subst p. destruct turns as [|turns]; [by left|].
    cbn [evalSymbolNode_scopes]. rewrite (load_Some _ _ _ Hb), bind_ret.
    destruct (evalSymbolNode_table_hit_any before fuel _ x e Hbefore Hother Hx He)
      as [-> | ->]; [by left|].
    right. rewrite bind_assoc.
    rewrite <- (bind_ret_r (ev (sym_value e))) at 2. f_equal.
  - destruct Hseg as (a & -> & Ha & Hseg).
    inversion Htab as [|? es ? tables' [Hes Hno] Htab']; subst.
    destruct turns as [|turns]; [by left|].
    cbn [evalSymbolNode_scopes]. rewrite (load_Some _ _ _ Ha), bind_ret.
    destruct (evalSymbolNode_table_miss_any es fuel _ Hes Hno) as [-> | ->];
      [by left|].
    rewrite bind_ret. destruct (parent m) as [a'|] eqn:Hp.
    + rewrite bind_ret. by eapply IH.
    + destruct missed; simpl in Hseg; [done|]. by destruct Hseg as (? & ? & _).
Qed.

End SelfReference.

(** A reference whose innermost binding is bound to that very reference
    never evaluates: each look-up leads to the same look-up again, so no
    amount of fuel makes the call return. *)
Theorem self_reference_never_returns lm ind h a n id missed tables b c before x e :
  nodes h !! a = Some n → data n = symbol id →
  scope_seg h (Some a) missed (Some b) →
  Forall2 (no_binding h id) missed tables →
  nodes h !! b = Some c →
  table_seg h (symbolTable c) before (Some x) →
  Forall (other_name id) before →
  symbols h !! x = Some e → sym_id e = Some id →
  sym_value e = Some a →
  ∀ fuel out r, eval lm ind h fuel (Some a) ≠ (out, Return r).
Proof.
  intros Ha Hd Hseg Htab Hb Hbefore Hother Hx He Hself.
  induction fuel as [|fuel IH]; intros out r; [discriminate|].
  rewrite (eval_unfold _ _ _ _ _ _ Ha), Hd. cbn [node_type]. unfold evalSymbolNode.
  rewrite (load_Some _ _ _ Ha), bind_ret, Hd.
  destruct (evalSymbolNode_scopes_any h (eval lm ind h fuel) id fuel b c before x e
              Hb Hbefore Hother Hx He missed tables fuel (Some a) Hseg Htab)
    as [-> | ->]; [discriminate|].
  rewrite Hself. apply IH.
Qed.

(** The bound reference of [((let (x x)) x)], block 1, with fuel 50. *)
Lemma self_reference_never_returns_witness :
  match (eval sample_libm NO_TYPE let_x_x_heap 50 (Some 1%positive)).2 with
  | Return _ => False
  | _ => True
  end.
Proof.
  destruct (eval sample_libm NO_TYPE let_x_x_heap 50 (Some 1%positive))
    as [out [r| | |]] eqn:E; cbn [snd]; [|exact I..].
  eapply (self_reference_never_returns sample_libm NO_TYPE let_x_x_heap 1%positive
            _ "x" [_] [[]] 4%positive _ [] 2%positive _); [..|exact E].
  - reflexivity.
  - reflexivity.
  - read_store.
  - repeat constructor.
  - reflexivity.
  - reflexivity.
  - constructor.
  - reflexivity.
  - reflexivity.
  - reflexivity.
Defined.
